(** * ssl-cipher-crt-sh: the cipher-scanning pipeline and its producer

    A shallow embedding of [get_domain_ciphers.py] and of the storage step
    of [subdomain_enumeration.py], with the properties of the store, the
    parser, the skip policy and the failure handling stated over it. *)

From stdpp Require Import base strings list gmap.
From Stdlib Require Import ZArith Lia.

Local Open Scope Z_scope.
Local Open Scope string_scope.
Local Open Scope list_scope.

(** ** Exceptions and results

    Python's exceptions, as far as the two scripts can meet them.
    [SystemExit] is what [sys.exit] raises; it derives from
    [BaseException] and not from [Exception], so [except Exception] lets it
    through. *)

Inductive exn :=
| ParseError                       (* xml.etree.ElementTree.ParseError *)
| IntegrityError (msg : string)    (* sqlite3.IntegrityError *)
| SystemExit (code : Z).

Definition is_Exception (e : exn) : bool :=
  match e with
  | SystemExit _ => false
  | ParseError | IntegrityError _ => true
  end.

Inductive outcome (A : Type) :=
| Return (a : A)
| Raise (e : exn).
Arguments Return {A} a.
Arguments Raise {A} e.

(** ** Scanner reports

    What [ET.fromstring] builds: an element has a tag, a dict of attributes
    and its children in document order (text and tail are never read by the
    program). *)

#[warnings="-register-all"]
Inductive element := Element {
  tag : string;
  attrib : gmap string string;
  children : list element
}.

(** [Element.iter()]: the element itself, then its descendants, in document
    order. *)
Fixpoint iter (e : element) : list element :=
  match e with
  | Element _ _ cs => e :: flat_map iter cs
  end.

(** [root.findall(".//" + name)]: every descendant of [root] with that tag,
    in document order; [root] itself is not among them. *)
Definition findall_descendants (name : string) (root : element) : list element :=
  filter (λ e, tag e = name) (flat_map iter (children root)).

(** The dict that [extract_accepted_ciphers] builds for each entry. *)
Record cipher := {
  sslversion : string;
  cipher_name : string;
  bits : string;
  cipher_id : string;
  status : string
}.

#[global] Instance cipher_eq_dec : EqDecision cipher.
Proof. solve_decision. Defined.

(** [dict.get(key, "")] *)
Definition get_default (d : gmap string string) (key : string) : string :=
  default "" (d !! key).

Definition accepted_statuses : gset string := {[ "accepted"; "preferred" ]}.

(** ** The environment of a run

    What the program obtains from outside: whether [shutil.which] finds
    sslscan, what the sslscan subprocess answers for a host and port (its
    standard output, or its standard error with a non-zero exit status), and
    the XML parser. *)

Inductive completed :=
| Exit0 (stdout : string)
| CalledProcessError (stderr : string).

Record world := {
  which_sslscan : bool;
  sslscan : string → Z → completed;
  fromstring : string → option element     (* None: ParseError *)
}.

(** ** Scan Result Parser *)

(** One turn of the [for cipher in root.findall(".//cipher")] loop. *)
Definition extract_step (ciphers : list cipher) (c : element) : list cipher :=
  match attrib c !! "status" with
  | Some st =>
      if decide (st ∈ accepted_statuses) then
        ciphers ++ [ {| sslversion := get_default (attrib c) "sslversion";
                        cipher_name := get_default (attrib c) "cipher";
                        bits := get_default (attrib c) "bits";
                        cipher_id := get_default (attrib c) "id";
                        status := st |} ]
      else ciphers
  | None => ciphers
  end.

Definition extract_accepted_ciphers (w : world) (xml_data : string)
  : outcome (list cipher) :=
  match fromstring w xml_data with
  | None => Raise ParseError
  | Some root =>
      Return (fold_left extract_step (findall_descendants "cipher" root) [])
  end.

(** ** The relational store

    The four tables of [domains.db], a row as a record and a table as the
    list of its rows in insertion order. A nullable column is an [option].
    The [created_at] columns, which the store fills from its clock and no
    statement of the program reads, are left out. [seq_domain_names] and
    [seq_domain_ciphers] are the entries of [sqlite_sequence] that SQLite
    keeps for the two AUTOINCREMENT tables the program inserts into. *)

Record tld_row := {
  tld_id : Z;
  tld_name : string;
  known_subdomains : option string;
  skip_existing : option Z
}.

Record domain_row := {
  dn_id : Z;
  dn_tld_id : option Z;
  name_value : string;
  resolver_answer : option string
}.

Record cipher_row := {
  row_cipher_id : string;
  row_sslversion : string;
  row_cipher_name : string;
  row_bits : string;
  row_status : string
}.

Record domain_cipher_row := {
  dc_id : Z;
  dc_domain_id : option Z;
  dc_cipher_id : option string
}.

Record store := {
  tlds : list tld_row;
  domain_names : list domain_row;
  ciphers : list cipher_row;
  domain_ciphers : list domain_cipher_row;
  seq_domain_names : Z;
  seq_domain_ciphers : Z
}.

#[global] Instance tld_row_eq_dec : EqDecision tld_row.
Proof. solve_decision. Defined.
#[global] Instance domain_row_eq_dec : EqDecision domain_row.
Proof. solve_decision. Defined.
#[global] Instance cipher_row_eq_dec : EqDecision cipher_row.
Proof. solve_decision. Defined.
#[global] Instance domain_cipher_row_eq_dec : EqDecision domain_cipher_row.
Proof. solve_decision. Defined.

(** The rowid an AUTOINCREMENT table gives a new row: one more than the
    largest rowid the table has ever held. *)
Definition next_rowid (seq : Z) (ids : list Z) : Z :=
  foldr Z.max seq ids + 1.

(** [INSERT OR IGNORE INTO ciphers (cipher_id, sslversion, cipher_name,
    bits, status) VALUES (?, ?, ?, ?, ?)]: [cipher_id] is the primary key;
    a row with that key makes the statement do nothing. *)
Definition insert_or_ignore_cipher (conn : store) (c : cipher) : store :=
  if decide (cipher_id c ∈ row_cipher_id <$> ciphers conn) then conn
  else
    {| tlds := tlds conn;
       domain_names := domain_names conn;
       ciphers := ciphers conn ++
         [ {| row_cipher_id := cipher_id c;
              row_sslversion := sslversion c;
              row_cipher_name := cipher_name c;
              row_bits := bits c;
              row_status := status c |} ];
       domain_ciphers := domain_ciphers conn;
       seq_domain_names := seq_domain_names conn;
       seq_domain_ciphers := seq_domain_ciphers conn |}.

Definition insert_ciphers_to_db (cs : list cipher) (conn : store) : store :=
  fold_left insert_or_ignore_cipher cs conn.

(** [SELECT id FROM domain_names WHERE name_value = ?] with [fetchone()] *)
Definition select_domain_id (conn : store) (host : string) : option Z :=
  dn_id <$> head (filter (λ r, name_value r = host) (domain_names conn)).

(** [INSERT INTO domain_names (name_value) VALUES (?)] with
    [cursor.lastrowid]: [tld_id] is left NULL and [resolver_answer] takes
    its default; [name_value] is UNIQUE and the statement has no OR IGNORE,
    so a row with that name raises. *)
Definition insert_domain_name (conn : store) (host : string)
  : outcome (store * Z) :=
  if decide (host ∈ name_value <$> domain_names conn) then
    Raise (IntegrityError "UNIQUE constraint failed: domain_names.name_value")
  else
    let id := next_rowid (seq_domain_names conn) (dn_id <$> domain_names conn) in
    Return
      ({| tlds := tlds conn;
          domain_names := domain_names conn ++
            [ {| dn_id := id; dn_tld_id := None; name_value := host;
                 resolver_answer := Some "" |} ];
          ciphers := ciphers conn;
          domain_ciphers := domain_ciphers conn;
          seq_domain_names := id;
          seq_domain_ciphers := seq_domain_ciphers conn |}, id).

(** [INSERT OR IGNORE INTO domain_ciphers (domain_id, cipher_id) VALUES
    (?, ?)]: the only constraint of the table is its AUTOINCREMENT primary
    key [id], which the statement does not supply and the store picks
    fresh; there is nothing for OR IGNORE to conflict with, and the row is
    always added. *)
Definition insert_or_ignore_domain_cipher (domain_id : Z) (conn : store)
    (c : cipher) : store :=
  let id := next_rowid (seq_domain_ciphers conn) (dc_id <$> domain_ciphers conn) in
  {| tlds := tlds conn;
     domain_names := domain_names conn;
     ciphers := ciphers conn;
     domain_ciphers := domain_ciphers conn ++
       [ {| dc_id := id; dc_domain_id := Some domain_id;
            dc_cipher_id := Some (cipher_id c) |} ];
     seq_domain_names := seq_domain_names conn;
     seq_domain_ciphers := id |}.

Definition map_domain_to_ciphers (host : string) (cs : list cipher)
    (conn : store) : outcome store :=
  let resolved :=
    match select_domain_id conn host with
    | None => insert_domain_name conn host
    | Some id => Return (conn, id)
    end in
  match resolved with
  | Raise e => Raise e
  | Return (conn, domain_id) =>
      Return (fold_left (insert_or_ignore_domain_cipher domain_id) cs conn)
  end.

(** *** The skip query *)

(** [l LEFT JOIN r ON on]: every row of [l] with each row of [r] it
    matches, or with NULLs when it matches none. *)
Definition left_join {A B : Type} (on : A → B → bool) (l : list A) (r : list B)
  : list (A * option B) :=
  l ≫= λ a,
    match filter (λ b, on a b) r with
    | [] => [(a, None)]
    | bs => (λ b, (a, Some b)) <$> bs
    end.

(** [SELECT count(1) FROM domain_ciphers dc
     LEFT JOIN domain_names dn ON dc.domain_id = dn.id
     LEFT JOIN tlds t ON dn.tld_id = t.id
     WHERE dn.name_value = ? AND t.skip_existing = 1] *)
Definition skip_count (conn : store) (host : string) : nat :=
  let dc_dn :=
    left_join (λ dc dn, bool_decide (dc_domain_id dc = Some (dn_id dn)))
      (domain_ciphers conn) (domain_names conn) in
  let dc_dn_t :=
    left_join (λ '(_, dn) t, bool_decide (dn ≫= dn_tld_id = Some (tld_id t)))
      dc_dn (tlds conn) in
  length (filter (λ '(_, dn, t),
                    name_value <$> dn = Some host ∧ t ≫= skip_existing = Some 1)
            dc_dn_t).

(** ** Effects

    A computation reads and writes the store through its connection, prints
    and starts subprocesses (both recorded, in order, in [out]), and ends by
    returning a value or raising. Every write of the program is committed
    before the next statement that can raise, so the store at a raise is
    the committed one. *)

Inductive event :=
| Run_sslscan (host : string) (port : Z)          (* subprocess.run *)
| Print_not_installed
| Print_sslscan_error (stderr : string)
| Print_skipping (host : string)
| Print_processing (host : string) (port : Z)
| Print_no_accepted (host : string) (port : Z)
| Print_no_domains
| Print_processing_domains (n : nat)
| Print_workers (max_workers : nat)
| Print_error_processing (host : string) (e : exn)
| Print_processed (host : string) (success : bool) (completed total : nat)
| Print_all_processed.

Record state := { db : store; out : list event }.

Definition M (A : Type) : Type := state → outcome A * state.

Definition ret {A} (a : A) : M A := λ s, (Return a, s).

Definition bind {A B} (m : M A) (k : A → M B) : M B :=
  λ s, match m s with
       | (Return a, s') => k a s'
       | (Raise e, s') => (Raise e, s')
       end.

Declare Scope prog_scope.
Delimit Scope prog_scope with prog.
Notation "'do' x <- m ; k" := (bind m (λ x, k%prog))
  (at level 10, x pattern, m at level 100, k at level 200) : prog_scope.
Notation "m ;; k" := (bind m (λ _, k%prog))
  (at level 100, k at level 200, right associativity) : prog_scope.

Definition raise {A} (e : exn) : M A := λ s, (Raise e, s).
Definition print (ev : event) : M unit :=
  λ s, (Return tt, {| db := db s; out := out s ++ [ev] |}).
Definition query {A} (q : store → A) : M A := λ s, (Return (q (db s)), s).
Definition execute (f : store → store) : M unit :=
  λ s, (Return tt, {| db := f (db s); out := out s |}).
Definition execute_checked (f : store → outcome store) : M unit :=
  λ s, match f (db s) with
       | Return conn => (Return tt, {| db := conn; out := out s |})
       | Raise e => (Raise e, s)
       end.
Definition lift {A} (r : outcome A) : M A := λ s, (r, s).

(** [sys.exit(code)] *)
Definition sys_exit {A} (code : Z) : M A := raise (SystemExit code).

(** [try: body  except Exception as e: handler(e)] *)
Definition try_except_Exception {A} (body : M A) (handler : exn → M A) : M A :=
  λ s, match body s with
       | (Return a, s') => (Return a, s')
       | (Raise e, s') =>
           if is_Exception e then handler e s' else (Raise e, s')
       end.

(** ** Host Scanner *)

Definition run_sslscan_xml (w : world) (host : string) (port : Z) : M string :=
  (if negb (which_sslscan w) then
     print Print_not_installed ;; sys_exit 1
   else
     print (Run_sslscan host port) ;;
     match sslscan w host port with
     | Exit0 stdout => ret stdout
     | CalledProcessError stderr =>
         print (Print_sslscan_error stderr) ;; sys_exit 1
     end)%prog.

(** ** Scan Orchestrator *)

(** The unit of work of one host. It returns [[]] ([Some []]) when it
    skips or finds nothing, and falls off its end ([None]) after
    persisting. *)
Definition process_domain (w : world) (host : string) (port : Z)
  : M (option (list cipher)) :=
  (do n <- query (λ conn, skip_count conn host);
   if decide (0 < n)%nat then
     print (Print_skipping host) ;; ret (Some [])
   else
     print (Print_processing host port) ;;
     do xml_output <- run_sslscan_xml w host port;
     do cs <- lift (extract_accepted_ciphers w xml_output);
     match cs with
     | [] => print (Print_no_accepted host port) ;; ret (Some [])
     | _ =>
         execute (insert_ciphers_to_db cs) ;;
         execute_checked (map_domain_to_ciphers host cs) ;;
         ret None
     end)%prog.

Definition process_domain_wrapper (w : world) (host : string) (port : Z)
  : M (string * bool) :=
  try_except_Exception
    (process_domain w host port ;; ret (host, true))%prog
    (λ e, print (Print_error_processing host e) ;; ret (host, false))%prog.

(** [executor.submit(fn)]: the work item runs and whatever it returns or
    raises is kept in its future. *)
Definition submit {A} (fn : M A) : M (outcome A) :=
  λ s, let '(r, s') := fn s in (Return r, s').

(** [future.result()] *)
Definition result {A} (future : outcome A) : M A := lift future.

(** The work items, run one after the other in the order [hosts]. *)
Fixpoint run_pool (w : world) (hosts : list string)
  : M (list (outcome (string * bool))) :=
  match hosts with
  | [] => ret []
  | host :: rest =>
      (do f <- submit (process_domain_wrapper w host 443);
       do fs <- run_pool w rest;
       ret (f :: fs))%prog
  end.

(** The loop over [as_completed(futures)]. *)
Fixpoint tally (futures : list (outcome (string * bool)))
    (completed total : nat) : M unit :=
  match futures with
  | [] => ret tt
  | future :: rest =>
      let completed := S completed in
      (do (host, success) <- result future;
       print (Print_processed host success completed total) ;;
       tally rest completed total)%prog
  end.

(** [process_domains]. The tables exist, so [setup_database] changes
    nothing. The worker pool is modelled by one of its executions: the
    units run one at a time, in the order [as_completed domains] in which
    they complete, and the main thread reads the futures afterwards in
    that order. A raise out of the result loop leaves the [with] block,
    whose exit waits for all submitted units; all of them have run. *)
Definition process_domains (w : world)
    (as_completed : list string → list string) : M unit :=
  (do domains <- query (λ conn, name_value <$> domain_names conn);
   match domains with
   | [] => print Print_no_domains
   | _ =>
       print (Print_processing_domains (length domains)) ;;
       let max_workers := (32 `min` length domains)%nat in
       print (Print_workers max_workers) ;;
       do futures <- run_pool w (as_completed domains);
       tally futures 0 (length domains) ;;
       print Print_all_processed
   end)%prog.

(** The script run as a program: the exit status of the process and what
    it leaves behind. An uncaught [SystemExit] gives its code, any other
    uncaught exception status 1. *)
Definition main (w : world) (as_completed : list string → list string)
    (conn : store) : Z * state :=
  match process_domains w as_completed {| db := conn; out := [] |} with
  | (Return _, s) => (0, s)
  | (Raise (SystemExit code), s) => (code, s)
  | (Raise _, s) => (1, s)
  end.

(** A run that starts on the store [conn] with nothing printed yet. *)
Definition start (conn : store) : state := {| db := conn; out := [] |}.

(** ** The producer: storing the names found in the certificate log *)

(** [s[1:]] *)
Definition slice_from_1 (s : string) : string :=
  match s with
  | EmptyString => EmptyString
  | String _ rest => rest
  end.

(** [s.startswith(p)] *)
Definition startswith (p s : string) : bool := String.prefix p s.

(** ["WILDCARD" + domain[1:] if domain.startswith('*') else domain], the
    expression [process_tlds] uses for the name it stores and resolves. *)
Definition wildcard_name (domain : string) : string :=
  if startswith "*" domain then "WILDCARD" +:+ slice_from_1 domain else domain.

(** [INSERT OR IGNORE INTO domain_names (tld_id, name_value,
    resolver_answer) VALUES (?, ?, ?)]: a row with that [name_value] makes
    the statement do nothing. *)
Definition insert_or_ignore_domain_name (conn : store)
    (row : Z * string * string) : store :=
  let '(tld, name, answer) := row in
  if decide (name ∈ name_value <$> domain_names conn) then conn
  else
    let id := next_rowid (seq_domain_names conn) (dn_id <$> domain_names conn) in
    {| tlds := tlds conn;
       domain_names := domain_names conn ++
         [ {| dn_id := id; dn_tld_id := Some tld; name_value := name;
              resolver_answer := Some answer |} ];
       ciphers := ciphers conn;
       domain_ciphers := domain_ciphers conn;
       seq_domain_names := id;
       seq_domain_ciphers := seq_domain_ciphers conn |}.

(** The part of [process_tlds] that stores what [fetch_domains_from_crtsh]
    returned for the TLD [tld]: the [if domains:] branch with its
    [domain_data] and [executemany]. [resolve] stands for
    [json.dumps(resolve_domain(name))]. *)
Definition store_fetched_domains (resolve : string → string) (tld : Z)
    (domains : list string) (conn : store) : store :=
  match domains with
  | [] => conn
  | _ =>
      let domain_data :=
        (λ domain, (tld, wildcard_name domain, resolve (wildcard_name domain)))
          <$> domains in
      fold_left insert_or_ignore_domain_name domain_data conn
  end.

(** ** The producer, in full

    [subdomain_enumeration.py] apart from its HTTP requests. A name is the
    string of its characters, with code points below 256 (host names are
    ASCII). *)

(** [s.split(sep)] for a separator of one character: the pieces between
    the separators, empty ones included. *)
Fixpoint split (sep : Ascii.ascii) (s : string) : list string :=
  match s with
  | EmptyString => [EmptyString]
  | String ch rest =>
      if decide (ch = sep) then EmptyString :: split sep rest
      else match split sep rest with
           | piece :: pieces => String ch piece :: pieces
           | [] => [String ch EmptyString]
           end
  end.

(** [ch.isspace()]: the white space that [strip()] removes, which for code
    points below 256 is tab to carriage return, the four separators 28 to
    31, the space, NEL and the no-break space. *)
Definition isspace (ch : Ascii.ascii) : bool :=
  bool_decide (Ascii.nat_of_ascii ch ∈
                 [9; 10; 11; 12; 13; 28; 29; 30; 31; 32; 133; 160]%nat).

Fixpoint lstrip (s : string) : string :=
  match s with
  | EmptyString => EmptyString
  | String ch rest => if isspace ch then lstrip rest else s
  end.

Fixpoint rstrip (s : string) : string :=
  match s with
  | EmptyString => EmptyString
  | String ch rest =>
      match rstrip rest with
      | EmptyString => if isspace ch then EmptyString else String ch EmptyString
      | kept => String ch kept
      end
  end.

(** [s.strip()] *)
Definition strip (s : string) : string := rstrip (lstrip s).

Definition newline : Ascii.ascii := Ascii.ascii_of_nat 10.
Definition comma : Ascii.ascii := Ascii.ascii_of_nat 44.

(** What the request to crt.sh gives: a failure of the request, a body
    that is not JSON, or the array of certificate records, each an object
    whose fields are strings. *)
Inductive crtsh_response :=
| Request_failed
| Json_undecodable
| Certificates (data : list (gmap string string)).

(** One turn of the loop over the lines of a [name_value]. *)
Definition add_domain (domains : gset string) (domain : string) : gset string :=
  let domain := strip domain in
  if decide (domain = "") then domains else {[ domain ]} ∪ domains.

(** [fetch_domains_from_crtsh], from the response on: the set [domains]
    that it builds. It returns [list(domains)], whose order the set does
    not fix; either exception gives the empty list. *)
Definition fetch_domains_from_crtsh (response : crtsh_response) : gset string :=
  match response with
  | Certificates data =>
      fold_left
        (λ domains cert,
           match cert !! "name_value" with
           | Some nv => fold_left add_domain (split newline nv) domains
           | None => domains
           end)
        data ∅
  | Request_failed | Json_undecodable => ∅
  end.

(** [INSERT OR IGNORE INTO tlds (name, known_subdomains, skip_existing)
    VALUES (?, ?, ?)]: [name] is UNIQUE. [seq] is the entry of
    [sqlite_sequence] for [tlds], returned as the statement leaves it. *)
Definition insert_or_ignore_tld (acc : store * Z) (row : string * string * Z)
  : store * Z :=
  let '(conn, seq) := acc in
  let '(name, known, skip) := row in
  if decide (name ∈ tld_name <$> tlds conn) then (conn, seq)
  else
    let id := next_rowid seq (tld_id <$> tlds conn) in
    ({| tlds := tlds conn ++
          [ {| tld_id := id; tld_name := name; known_subdomains := Some known;
               skip_existing := Some skip |} ];
        domain_names := domain_names conn;
        ciphers := ciphers conn;
        domain_ciphers := domain_ciphers conn;
        seq_domain_names := seq_domain_names conn;
        seq_domain_ciphers := seq_domain_ciphers conn |}, id).

(** [setup_database] of the producer on a store whose tables exist: the
    built-in list of TLDs, each with its [known_subdomains] and with
    [skip_existing] defaulting to 1, inserted unless its name is there. *)
Definition setup_database (conn : store) (seq_tlds : Z) : store * Z :=
  let tlds := [("malmeida.dev", "www", 1)] in
  fold_left insert_or_ignore_tld tlds (conn, seq_tlds).

(** What the producer obtains from outside: the names
    [fetch_domains_from_crtsh] returns for a TLD and
    [json.dumps(resolve_domain(name))] for a name. *)
Record producer_world := {
  crtsh : string → list string;
  resolved : string → string
}.

(** The exceptions that end [process_tlds] early: [split] on a
    [known_subdomains] that is NULL, and the subscript of a [fetchone()]
    that found no row. *)
Inductive producer_error := AttributeError | TypeError.

(** The loop over [tld_known_subdomain.split(',')] *)
Definition insert_known_subdomains (pw : producer_world) (tld : Z)
    (tld_name known : string) (conn : store) : store :=
  fold_left
    (λ conn known_subdomain,
       let known_subdomain := strip known_subdomain in
       if decide (known_subdomain = "") then conn
       else insert_or_ignore_domain_name conn
              (tld, known_subdomain +:+ "." +:+ tld_name,
               resolved pw (known_subdomain +:+ "." +:+ tld_name)))
    (split comma known) conn.

(** Python's truth value of an integer column: NULL and 0 are false. *)
Definition truthy (v : option Z) : bool :=
  match v with
  | None => false
  | Some n => negb (Z.eqb n 0)
  end.

(** The body of the loop of [process_tlds] for the TLD row [(tld_id,
    tld_name, tld_known_subdomain)]: the store it has committed when it
    ends, or the exception that ends the loop, raised before it wrote. *)
Definition process_tld (pw : producer_world) (conn : store)
    (t : Z * string * option string) : producer_error + store :=
  let '(tld, tld_name, tld_known_subdomain) := t in
  let existing_count :=
    length (filter (λ dn, dn_tld_id dn = Some tld) (domain_names conn)) in
  match head (filter (λ r, tld_id r = tld) (tlds conn)) with
  | None => inl TypeError
  | Some row =>
      if truthy (skip_existing row) && bool_decide (0 < existing_count)%nat
      then inr conn
      else
        match tld_known_subdomain with
        | None => inl AttributeError
        | Some known =>
            let conn := insert_known_subdomains pw tld tld_name known conn in
            inr (store_fetched_domains (resolved pw) tld (crtsh pw tld_name) conn)
        end
  end.

(** The loop: it stops at the first exception, which the [except] of
    [process_tlds] prints, with the store as committed so far. *)
Fixpoint process_tlds_loop (pw : producer_world)
    (ts : list (Z * string * option string)) (conn : store)
  : store * option producer_error :=
  match ts with
  | [] => (conn, None)
  | t :: rest =>
      match process_tld pw conn t with
      | inl e => (conn, Some e)
      | inr conn => process_tlds_loop pw rest conn
      end
  end.

(** [process_tlds]: set up, read the TLD rows, loop. *)
Definition process_tlds (pw : producer_world) (conn : store) (seq_tlds : Z)
  : store * option producer_error :=
  let '(conn, _) := setup_database conn seq_tlds in
  let ts := (λ r, (tld_id r, tld_name r, known_subdomains r)) <$> tlds conn in
  process_tlds_loop pw ts conn.

(** ** Vocabulary of the statements *)

(** An entry counts as offered when its status is exactly [accepted] or
    [preferred]. *)
Definition offered (e : element) : Prop :=
  attrib e !! "status" = Some "accepted" ∨ attrib e !! "status" = Some "preferred".

#[global] Instance offered_dec e : Decision (offered e).
Proof. unfold offered. apply _. Defined.

(** The record an entry is expected to give: each attribute as it stands in
    the report. *)
Definition record_of (e : element) : cipher :=
  {| sslversion := get_default (attrib e) "sslversion";
     cipher_name := get_default (attrib e) "cipher";
     bits := get_default (attrib e) "bits";
     cipher_id := get_default (attrib e) "id";
     status := get_default (attrib e) "status" |}.

(** The association rows of the pair of a host and a cipher identifier:
    the rows of [domain_ciphers] with that cipher whose domain is a row of
    [domain_names] with that name. *)
Definition association_rows (conn : store) (host cid : string)
  : list domain_cipher_row :=
  filter (λ dc, dc_cipher_id dc = Some cid ∧
                dc_domain_id dc ∈
                  (λ dn, Some (dn_id dn)) <$>
                    filter (λ dn, name_value dn = host) (domain_names conn))
    (domain_ciphers conn).

(** The host has at least one association row. *)
Definition has_association (conn : store) (host : string) : Prop :=
  ∃ dc dn, dc ∈ domain_ciphers conn ∧ dn ∈ domain_names conn ∧
           name_value dn = host ∧ dc_domain_id dc = Some (dn_id dn).

(** The row of the host names a parent TLD whose [skip_existing] is 1. *)
Definition parent_tld_skips (conn : store) (host : string) : Prop :=
  ∃ dn t, dn ∈ domain_names conn ∧ name_value dn = host ∧ t ∈ tlds conn ∧
          dn_tld_id dn = Some (tld_id t) ∧ skip_existing t = Some 1.

(** The host has a row, and every row of that name has no parent TLD. *)
Definition without_tld (conn : store) (host : string) : Prop :=
  host ∈ name_value <$> domain_names conn ∧
  ∀ dn, dn ∈ domain_names conn → name_value dn = host → dn_tld_id dn = None.

Definition set_tlds (ts : list tld_row) (conn : store) : store :=
  {| tlds := ts;
     domain_names := domain_names conn;
     ciphers := ciphers conn;
     domain_ciphers := domain_ciphers conn;
     seq_domain_names := seq_domain_names conn;
     seq_domain_ciphers := seq_domain_ciphers conn |}.

(** The stores the two scripts can make of [conn]: by units of work of
    the scanner for any host in any environment, by the producer storing
    fetched names, and by any change of the [tlds] table. *)
Inductive later_store (conn : store) : store → Prop :=
| later_now : later_store conn conn
| later_unit conn' w host port printed :
    later_store conn conn' →
    later_store conn
      (db (process_domain w host port {| db := conn'; out := printed |}).2)
| later_fetch conn' resolve tld domains :
    later_store conn conn' →
    later_store conn (store_fetched_domains resolve tld domains conn')
| later_tlds conn' ts :
    later_store conn conn' →
    later_store conn (set_tlds ts conn').

(** The hosts of the tally lines among what a run printed, in order. *)
Definition processed_hosts (evs : list event) : list string :=
  omap (λ ev, match ev with
              | Print_processed host _ _ _ => Some host
              | _ => None
              end) evs.

(** What the result loop prints for a list of futures: a line for each
    future up to the first one that holds a raise. *)
Fixpoint tally_lines (futures : list (outcome (string * bool)))
    (completed total : nat) : list event :=
  match futures with
  | Return (host, success) :: rest =>
      Print_processed host success (S completed) total
        :: tally_lines rest (S completed) total
  | _ => []
  end.

(** The first raise among the futures, if any. *)
Fixpoint first_raise {A} (futures : list (outcome A)) : option exn :=
  match futures with
  | [] => None
  | Return _ :: rest => first_raise rest
  | Raise e :: _ => Some e
  end.

(** ** Sample data *)

Definition tls12_preferred : cipher :=
  {| sslversion := "TLSv1.2"; cipher_name := "ECDHE-RSA-AES256-GCM-SHA384";
     bits := "256"; cipher_id := "C1"; status := "preferred" |}.

Definition cipher_entry (attrs : list (string * string)) : element :=
  Element "cipher" (list_to_map attrs) [].

(** A report with a preferred entry, a rejected one and an accepted one
    that carries nothing but its status. *)
Definition sample_report : element :=
  Element "document" ∅
    [ Element "ssltest" {[ "host" := "a.example.com" ]}
        [ cipher_entry [("status", "preferred"); ("sslversion", "TLSv1.2");
                        ("bits", "256"); ("cipher", "ECDHE-RSA-AES256-GCM-SHA384");
                        ("id", "C1")];
          cipher_entry [("status", "rejected"); ("sslversion", "TLSv1.2");
                        ("bits", "128"); ("cipher", "RC4-SHA"); ("id", "C2")];
          cipher_entry [("status", "accepted")] ] ].

(** A report in which nothing is accepted. *)
Definition rejecting_report : element :=
  Element "document" ∅
    [ Element "ssltest" ∅
        [ cipher_entry [("status", "rejected"); ("id", "C2")] ] ].

(** sslscan is installed; it fails for [down.example.com] and answers for
    every other host; [b.example.com] gets a report that does not parse and
    [c.example.com] one without accepted entries. *)
Definition sample_world : world :=
  {| which_sslscan := true;
     sslscan := λ host _,
       if decide (host = "down.example.com") then
         CalledProcessError "Connection refused"
       else if decide (host = "b.example.com") then Exit0 "<document"
       else if decide (host = "c.example.com") then Exit0 "rejecting"
       else Exit0 "sample";
     fromstring := λ xml_data,
       if decide (xml_data = "sample") then Some sample_report
       else if decide (xml_data = "rejecting") then Some rejecting_report
       else None |}.

(** The same, without sslscan. *)
Definition world_without_sslscan : world :=
  {| which_sslscan := false;
     sslscan := sslscan sample_world;
     fromstring := fromstring sample_world |}.

Definition sample_tld : tld_row :=
  {| tld_id := 1; tld_name := "example.com"; known_subdomains := Some "www";
     skip_existing := Some 1 |}.

Definition host_row (id : Z) (name : string) : domain_row :=
  {| dn_id := id; dn_tld_id := Some 1; name_value := name;
     resolver_answer := Some "[]" |}.

(** A store as the producer leaves it, with the given hosts under one TLD
    whose [skip_existing] is set, and nothing scanned yet. *)
Definition store_with (rows : list domain_row) : store :=
  {| tlds := [sample_tld];
     domain_names := rows;
     ciphers := [];
     domain_ciphers := [];
     seq_domain_names := Z.of_nat (length rows);
     seq_domain_ciphers := 0 |}.

Definition sample_store : store := store_with [host_row 1 "a.example.com"].

(** Two hosts under a skipping TLD; sslscan fails for the first. *)
Definition store_with_down_host : store :=
  store_with [host_row 1 "down.example.com"; host_row 2 "a.example.com"].

(** Three hosts: one with a good report, one with a report that does not
    parse, one with nothing accepted. *)
Definition store_with_bad_report : store :=
  store_with [host_row 1 "a.example.com"; host_row 2 "b.example.com";
              host_row 3 "c.example.com"].

(** [sample_store] after [a.example.com] was found to offer [C1]. *)
Definition scanned_store : store :=
  {| tlds := [sample_tld];
     domain_names := [host_row 1 "a.example.com"];
     ciphers :=
       [ {| row_cipher_id := "C1"; row_sslversion := "TLSv1.2";
            row_cipher_name := "ECDHE-RSA-AES256-GCM-SHA384";
            row_bits := "256"; row_status := "preferred" |} ];
     domain_ciphers :=
       [ {| dc_id := 1; dc_domain_id := Some 1; dc_cipher_id := Some "C1" |} ];
     seq_domain_names := 1;
     seq_domain_ciphers := 1 |}.

(** ** Vocabulary of the further properties *)

(** The row that [insert_or_ignore_cipher] writes for a record. *)
Definition cipher_row_of (c : cipher) : cipher_row :=
  {| row_cipher_id := cipher_id c;
     row_sslversion := sslversion c;
     row_cipher_name := cipher_name c;
     row_bits := bits c;
     row_status := status c |}.

(** What the schema declares unique is unique: the names and the rowids of
    [domain_names], the keys of [ciphers], the rowids of [domain_ciphers]. *)
Record keys_unique (conn : store) : Prop := {
  unique_names : NoDup (name_value <$> domain_names conn);
  unique_domain_ids : NoDup (dn_id <$> domain_names conn);
  unique_cipher_ids : NoDup (row_cipher_id <$> ciphers conn);
  unique_association_ids : NoDup (dc_id <$> domain_ciphers conn)
}.

(** Every association row points to a domain row and to a cipher row that
    exist (the foreign keys of [domain_ciphers], which SQLite does not
    enforce unless asked to). *)
Definition references_resolve (conn : store) : Prop :=
  ∀ dc, dc ∈ domain_ciphers conn →
    (∃ dn, dn ∈ domain_names conn ∧ dc_domain_id dc = Some (dn_id dn)) ∧
    (∃ row, row ∈ ciphers conn ∧ dc_cipher_id dc = Some (row_cipher_id row)).


(** The producer's view of growth: [tlds] and [domain_names] of [conn0]
    are the front of those of the store, the two other tables are equal. *)
Definition extends (conn0 conn : store) : Prop :=
  tlds conn0 `prefix_of` tlds conn ∧
  domain_names conn0 `prefix_of` domain_names conn ∧
  ciphers conn = ciphers conn0 ∧
  domain_ciphers conn = domain_ciphers conn0.

(** [scanned_store] after a second scan of the same host. *)
Definition scanned_twice_store : store :=
  {| tlds := [sample_tld];
     domain_names := [host_row 1 "a.example.com"];
     ciphers :=
       [ {| row_cipher_id := "C1"; row_sslversion := "TLSv1.2";
            row_cipher_name := "ECDHE-RSA-AES256-GCM-SHA384";
            row_bits := "256"; row_status := "preferred" |} ];
     domain_ciphers :=
       [ {| dc_id := 1; dc_domain_id := Some 1; dc_cipher_id := Some "C1" |};
         {| dc_id := 2; dc_domain_id := Some 1; dc_cipher_id := Some "C1" |} ];
     seq_domain_names := 1;
     seq_domain_ciphers := 2 |}.

(** * Properties *)

(** ** The parser *)

Lemma accepted_statuses_spec (st : string) :
  st ∈ accepted_statuses ↔ st = "accepted" ∨ st = "preferred".
Proof. unfold accepted_statuses. set_solver. Qed.

Lemma offered_status (e : element) :
  offered e →
  attrib e !! "status" = Some (status (record_of e)) ∧
  (status (record_of e) = "accepted" ∨ status (record_of e) = "preferred").
Proof.
  unfold offered, record_of, get_default; simpl.
  intros [H|H]; rewrite H; simpl; auto.
Qed.

Lemma extract_step_spec (acc : list cipher) (e : element) :
  extract_step acc e = acc ++ (if decide (offered e) then [record_of e] else []).
Proof.
  unfold extract_step.
  destruct (decide (offered e)) as [Hoff|Hoff].
  - destruct (offered_status e Hoff) as [Hst Hor]. rewrite Hst.
    rewrite decide_True by (by apply accepted_statuses_spec). done.
  - destruct (attrib e !! "status") as [st|] eqn:Hst; [|by rewrite app_nil_r].
    rewrite decide_False; [by rewrite app_nil_r|].
    rewrite accepted_statuses_spec. intros Hor. apply Hoff.
    unfold offered. rewrite Hst. destruct Hor as [->| ->]; auto.
Qed.

Lemma extract_loop_spec (es : list element) (acc : list cipher) :
  fold_left extract_step es acc = acc ++ (record_of <$> filter offered es).
Proof.
  revert acc. induction es as [|e es IH]; intros acc; simpl.
  - by rewrite app_nil_r.
  - rewrite IH, extract_step_spec, filter_cons.
    destruct (decide (offered e)); simpl.
    + by rewrite <- app_assoc.
    + by rewrite app_nil_r.
Qed.

Lemma extract_accepted_ciphers_eq w xml_data root :
  fromstring w xml_data = Some root →
  extract_accepted_ciphers w xml_data =
    Return (record_of <$> filter offered (findall_descendants "cipher" root)).
Proof.
  intros Hroot. unfold extract_accepted_ciphers. rewrite Hroot.
  by rewrite extract_loop_spec.
Qed.

(** C4. On a report that parses, [extract_accepted_ciphers] returns, in
    document order, one record for each cipher entry whose status is
    [accepted] or [preferred], carrying that entry's sslversion, cipher,
    bits and id attributes and its status; every record of the output comes
    from such an entry, so an entry with any other status (or none)
    contributes nothing. *)
Theorem extract_accepted_ciphers_exact w xml_data root :
  fromstring w xml_data = Some root →
  ∃ ciphers_out,
    extract_accepted_ciphers w xml_data = Return ciphers_out ∧
    ciphers_out = record_of <$> filter offered (findall_descendants "cipher" root) ∧
    (∀ r, r ∈ ciphers_out ↔
       ∃ e, e ∈ findall_descendants "cipher" root ∧
            attrib e !! "status" = Some (status r) ∧
            (status r = "accepted" ∨ status r = "preferred") ∧
            sslversion r = get_default (attrib e) "sslversion" ∧
            cipher_name r = get_default (attrib e) "cipher" ∧
            bits r = get_default (attrib e) "bits" ∧
            cipher_id r = get_default (attrib e) "id") ∧
    (∀ e r, e ∈ findall_descendants "cipher" root → ¬ offered e →
            r ∈ ciphers_out → attrib e !! "status" ≠ Some (status r)).
Proof.
  intros Hroot. eexists. split; [by apply extract_accepted_ciphers_eq|].
  split; [done|]. split.
  - intros r. rewrite list_elem_of_fmap. split.
    + intros (e & -> & He). apply list_elem_of_filter in He as [Hoff He].
      exists e. destruct (offered_status e Hoff) as [Hst Hor]. auto 10.
    + intros (e & He & Hst & Hor & Hv & Hn & Hb & Hi).
      exists e. split.
      * destruct r as [v n b i s]; simpl in *. unfold record_of, get_default.
        rewrite Hst. simpl. by subst.
      * apply list_elem_of_filter. split; [|done].
        unfold offered. rewrite Hst. destruct Hor as [->| ->]; auto.
  - intros e r He Hnot Hr Hst. apply list_elem_of_fmap in Hr as (e' & -> & He').
    apply list_elem_of_filter in He' as [Hoff' _].
    destruct (offered_status e' Hoff') as [_ Hor].
    apply Hnot. unfold offered. rewrite Hst. destruct Hor as [->| ->]; auto.
Qed.

Lemma extract_accepted_ciphers_exact_witness :
  fromstring sample_world "sample" = Some sample_report ∧
  ∃ ciphers_out,
    extract_accepted_ciphers sample_world "sample" = Return ciphers_out ∧
    ciphers_out =
      record_of <$> filter offered (findall_descendants "cipher" sample_report).
Proof.
  split; [reflexivity|].
  destruct (extract_accepted_ciphers_exact sample_world "sample" sample_report)
    as (ciphers_out & Hrun & Heq & _); [reflexivity|].
  exists ciphers_out. split; [exact Hrun|exact Heq].
Defined.

(** C8. The record emitted for an offered entry has the empty string in
    the field of each of the sslversion, cipher, id and bits attributes the
    entry lacks, and the parse returns: the [i]-th offered entry of the
    report gives the [i]-th record of the output. *)
Theorem missing_attribute_is_empty_string w xml_data root (i : nat) e :
  fromstring w xml_data = Some root →
  filter offered (findall_descendants "cipher" root) !! i = Some e →
  ∃ ciphers_out r,
    extract_accepted_ciphers w xml_data = Return ciphers_out ∧
    ciphers_out !! i = Some r ∧
    attrib e !! "status" = Some (status r) ∧
    (attrib e !! "sslversion" = None → sslversion r = "") ∧
    (attrib e !! "cipher" = None → cipher_name r = "") ∧
    (attrib e !! "id" = None → cipher_id r = "") ∧
    (attrib e !! "bits" = None → bits r = "").
Proof.
  intros Hroot Hi. exists (record_of <$> filter offered (findall_descendants "cipher" root)),
    (record_of e).
  split; [by apply extract_accepted_ciphers_eq|].
  split; [by rewrite list_lookup_fmap, Hi|].
  assert (offered e) as Hoff.
  { apply list_elem_of_lookup_2 in Hi. by apply list_elem_of_filter in Hi as [? _]. }
  split; [by apply offered_status|].
  unfold record_of, get_default; simpl.
  repeat split; intros ->; done.
Qed.

Lemma missing_attribute_is_empty_string_witness :
  fromstring sample_world "sample" = Some sample_report ∧
  filter offered (findall_descendants "cipher" sample_report) !! 1%nat
    = Some (cipher_entry [("status", "accepted")]) ∧
  ∃ ciphers_out r,
    extract_accepted_ciphers sample_world "sample" = Return ciphers_out ∧
    ciphers_out !! 1%nat = Some r ∧
    sslversion r = "" ∧ cipher_name r = "" ∧ cipher_id r = "" ∧ bits r = "".
Proof.
  split; [reflexivity|]. split; [vm_compute; reflexivity|].
  destruct (missing_attribute_is_empty_string sample_world "sample" sample_report
              1 (cipher_entry [("status", "accepted")]))
    as (ciphers_out & r & Hrun & Hr & _ & Hv & Hn & Hi & Hb);
    [reflexivity|vm_compute; reflexivity|].
  exists ciphers_out, r. split; [exact Hrun|]. split; [exact Hr|].
  split; [apply Hv; vm_compute; reflexivity|].
  split; [apply Hn; vm_compute; reflexivity|].
  split; [apply Hi; vm_compute; reflexivity|apply Hb; vm_compute; reflexivity].
Defined.

(** ** The store *)

Lemma filter_nil_iff {A} (P : A → Prop) `{!∀ x, Decision (P x)} (l : list A) :
  filter P l = [] ↔ ∀ x, x ∈ l → ¬ P x.
Proof.
  induction l as [|a l IH]; [by split; [intros _ ? ?%elem_of_nil|]|].
  rewrite filter_cons. split.
  - intros Hnil x Hx. destruct (decide (P a)); [done|].
    apply elem_of_cons in Hx as [->|Hx]; [done|]. by apply IH.
  - intros Hall. rewrite decide_False by (apply Hall; left).
    apply IH. intros x Hx. apply Hall. by right.
Qed.

Section insert_ciphers.

Lemma insert_or_ignore_cipher_frame conn c :
  let conn' := insert_or_ignore_cipher conn c in
  tlds conn' = tlds conn ∧ domain_names conn' = domain_names conn ∧
  domain_ciphers conn' = domain_ciphers conn ∧
  seq_domain_names conn' = seq_domain_names conn ∧
  seq_domain_ciphers conn' = seq_domain_ciphers conn.
Proof. unfold insert_or_ignore_cipher. by case_decide. Qed.

Lemma insert_ciphers_to_db_frame cs conn :
  let conn' := insert_ciphers_to_db cs conn in
  tlds conn' = tlds conn ∧ domain_names conn' = domain_names conn ∧
  domain_ciphers conn' = domain_ciphers conn ∧
  seq_domain_names conn' = seq_domain_names conn ∧
  seq_domain_ciphers conn' = seq_domain_ciphers conn.
Proof.
  unfold insert_ciphers_to_db. revert conn.
  induction cs as [|c cs IH]; intros conn; simpl; [done|].
  destruct (IH (insert_or_ignore_cipher conn c)) as (-> & -> & -> & -> & ->).
  apply insert_or_ignore_cipher_frame.
Qed.

(** One statement appends at most one row, and only under a new key. *)
Lemma insert_or_ignore_cipher_appends conn c :
  ∃ added,
    ciphers (insert_or_ignore_cipher conn c) = ciphers conn ++ added ∧
    ∀ r, r ∈ added → row_cipher_id r ∉ row_cipher_id <$> ciphers conn.
Proof.
  unfold insert_or_ignore_cipher. case_decide as Hin.
  - exists []. split; [by rewrite app_nil_r|]. by intros r ?%elem_of_nil.
  - eexists. split; [done|]. by intros r ->%list_elem_of_singleton.
Qed.

Lemma insert_ciphers_to_db_appends cs conn :
  ∃ added,
    ciphers (insert_ciphers_to_db cs conn) = ciphers conn ++ added ∧
    ∀ r, r ∈ added → row_cipher_id r ∉ row_cipher_id <$> ciphers conn.
Proof.
  unfold insert_ciphers_to_db. revert conn.
  induction cs as [|c cs IH]; intros conn; simpl.
  - exists []. split; [by rewrite app_nil_r|]. by intros r ?%elem_of_nil.
  - destruct (insert_or_ignore_cipher_appends conn c) as (a1 & E1 & H1).
    destruct (IH (insert_or_ignore_cipher conn c)) as (a2 & E2 & H2).
    exists (a1 ++ a2). split; [by rewrite E2, E1, app_assoc|].
    intros r [Hr|Hr]%elem_of_app; [by apply H1|].
    specialize (H2 r Hr). rewrite E1, fmap_app in H2.
    intros Hin. apply H2, elem_of_app. by left.
Qed.

(** A key that is in the table makes the statement a no-op. *)
Lemma insert_or_ignore_cipher_present conn c :
  cipher_id c ∈ row_cipher_id <$> ciphers conn →
  insert_or_ignore_cipher conn c = conn.
Proof. intros H. unfold insert_or_ignore_cipher. by rewrite decide_True. Qed.

Lemma insert_or_ignore_cipher_keys conn c :
  cipher_id c ∈ row_cipher_id <$> ciphers (insert_or_ignore_cipher conn c).
Proof.
  unfold insert_or_ignore_cipher. case_decide; [done|]; simpl.
  rewrite fmap_app. apply elem_of_app. right. simpl. left.
Qed.

Lemma insert_ciphers_to_db_present cs conn :
  (∀ c, c ∈ cs → cipher_id c ∈ row_cipher_id <$> ciphers conn) →
  insert_ciphers_to_db cs conn = conn.
Proof.
  unfold insert_ciphers_to_db. induction cs as [|c cs IH]; intros H; simpl; [done|].
  rewrite insert_or_ignore_cipher_present by (apply H; left).
  apply IH. intros c' Hc'. apply H. by right.
Qed.

Lemma insert_ciphers_to_db_keys cs conn c :
  c ∈ cs → cipher_id c ∈ row_cipher_id <$> ciphers (insert_ciphers_to_db cs conn).
Proof.
  unfold insert_ciphers_to_db. revert conn.
  induction cs as [|c' cs IH]; intros conn Hc; simpl; [by apply elem_of_nil in Hc|].
  apply elem_of_cons in Hc as [->|Hc]; [|by apply IH].
  destruct (insert_ciphers_to_db_appends cs (insert_or_ignore_cipher conn c'))
    as (added & E & _).
  unfold insert_ciphers_to_db in E. rewrite E, fmap_app.
  apply elem_of_app. left. apply insert_or_ignore_cipher_keys.
Qed.

(** The cipher upsert alone is idempotent. *)
Lemma insert_ciphers_to_db_idempotent cs conn :
  insert_ciphers_to_db cs (insert_ciphers_to_db cs conn) =
  insert_ciphers_to_db cs conn.
Proof.
  apply insert_ciphers_to_db_present. intros c Hc.
  by apply insert_ciphers_to_db_keys.
Qed.

End insert_ciphers.

(** C7. [insert_ciphers_to_db] keeps the [ciphers] table it finds as the
    front of the table it leaves, row for row, and every row it adds has a
    [cipher_id] that no row had before: a row that is in the table stays as
    it is, and it remains the only row with its [cipher_id] present before,
    whatever values the new records carry under that identifier. *)
Theorem insert_ciphers_to_db_never_updates (cs : list cipher) (conn : store) :
  ∃ added,
    ciphers (insert_ciphers_to_db cs conn) = ciphers conn ++ added ∧
    (∀ r, r ∈ added → row_cipher_id r ∉ row_cipher_id <$> ciphers conn) ∧
    (∀ (i : nat) row, ciphers conn !! i = Some row →
       ciphers (insert_ciphers_to_db cs conn) !! i = Some row) ∧
    (∀ row row', row ∈ ciphers conn →
       row' ∈ ciphers (insert_ciphers_to_db cs conn) →
       row_cipher_id row' = row_cipher_id row → row' ∈ ciphers conn).
Proof.
  destruct (insert_ciphers_to_db_appends cs conn) as (added & E & Hnew).
  exists added. split; [done|]. split; [done|]. split.
  - intros i row Hi. rewrite E. by apply lookup_app_l_Some.
  - intros row row' Hrow Hrow' Hid. rewrite E in Hrow'.
    apply elem_of_app in Hrow' as [?|Hadd]; [done|].
    exfalso. apply (Hnew row' Hadd). rewrite Hid.
    apply list_elem_of_fmap. eauto.
Qed.

Section map_domain.

Lemma select_domain_id_None conn host :
  select_domain_id conn host = None ↔ host ∉ name_value <$> domain_names conn.
Proof.
  unfold select_domain_id. rewrite fmap_None, head_None. split.
  - intros Hnil (dn & -> & Hdn)%list_elem_of_fmap.
    assert (dn ∈ filter (λ r, name_value r = name_value dn) (domain_names conn)) as Hin
      by by apply list_elem_of_filter.
    rewrite Hnil in Hin. by apply elem_of_nil in Hin.
  - intros Hnot. apply filter_nil_iff. intros dn Hdn Hname.
    apply Hnot. apply list_elem_of_fmap. eauto.
Qed.

Lemma select_domain_id_Some conn host id :
  select_domain_id conn host = Some id →
  ∃ dn, dn ∈ domain_names conn ∧ name_value dn = host ∧ dn_id dn = id.
Proof.
  unfold select_domain_id. intros (dn & Hhd & ->)%fmap_Some.
  apply head_Some_elem_of, list_elem_of_filter in Hhd as [? ?]. eauto.
Qed.

Lemma link_rows_frame domain_id cs conn :
  let conn' := fold_left (insert_or_ignore_domain_cipher domain_id) cs conn in
  tlds conn' = tlds conn ∧ domain_names conn' = domain_names conn ∧
  ciphers conn' = ciphers conn ∧
  seq_domain_names conn' = seq_domain_names conn.
Proof.
  revert conn. induction cs as [|c cs IH]; intros conn; simpl; [done|].
  by destruct (IH (insert_or_ignore_domain_cipher domain_id conn c))
    as (-> & -> & -> & ->).
Qed.

(** Every record gives a new association row, whatever the table holds. *)
Lemma link_rows_appends domain_id cs conn :
  ∃ added,
    domain_ciphers (fold_left (insert_or_ignore_domain_cipher domain_id) cs conn)
      = domain_ciphers conn ++ added ∧
    (λ dc, (dc_domain_id dc, dc_cipher_id dc)) <$> added
      = (λ c, (Some domain_id, Some (cipher_id c))) <$> cs.
Proof.
  revert conn. induction cs as [|c cs IH]; intros conn; simpl.
  - exists []. by rewrite app_nil_r.
  - destruct (IH (insert_or_ignore_domain_cipher domain_id conn c)) as (added & E & Hadd).
    eexists (_ :: added). split.
    + rewrite E. simpl. by rewrite <- app_assoc.
    + by rewrite !fmap_cons, Hadd.
Qed.

(** What [map_domain_to_ciphers] does, by cases on the host being known.
    It never raises: it inserts the host only after its own lookup found
    no row of that name. *)
Lemma map_domain_to_ciphers_known host cs conn id :
  select_domain_id conn host = Some id →
  map_domain_to_ciphers host cs conn =
    Return (fold_left (insert_or_ignore_domain_cipher id) cs conn).
Proof. intros H. unfold map_domain_to_ciphers. by rewrite H. Qed.

Lemma map_domain_to_ciphers_unknown host cs conn :
  select_domain_id conn host = None →
  ∃ conn1 id,
    insert_domain_name conn host = Return (conn1, id) ∧
    domain_names conn1 = domain_names conn ++
      [ {| dn_id := id; dn_tld_id := None; name_value := host;
           resolver_answer := Some "" |} ] ∧
    tlds conn1 = tlds conn ∧ ciphers conn1 = ciphers conn ∧
    domain_ciphers conn1 = domain_ciphers conn ∧
    map_domain_to_ciphers host cs conn =
      Return (fold_left (insert_or_ignore_domain_cipher id) cs conn1).
Proof.
  intros H. unfold map_domain_to_ciphers. rewrite H.
  apply select_domain_id_None in H. unfold insert_domain_name.
  rewrite decide_False by done. eexists _, _. by repeat split.
Qed.

Lemma map_domain_to_ciphers_returns host cs conn :
  ∃ conn', map_domain_to_ciphers host cs conn = Return conn'.
Proof.
  destruct (select_domain_id conn host) as [id|] eqn:Hsel.
  - eexists. by apply map_domain_to_ciphers_known.
  - destruct (map_domain_to_ciphers_unknown host cs conn Hsel)
      as (? & ? & _ & _ & _ & _ & _ & ->). eauto.
Qed.

Lemma select_domain_id_app_l conn conn' host id rows :
  domain_names conn' = domain_names conn ++ rows →
  select_domain_id conn host = Some id →
  select_domain_id conn' host = Some id.
Proof.
  unfold select_domain_id. intros -> H. rewrite filter_app.
  destruct (filter _ (domain_names conn)); [done|]. done.
Qed.

(** After a first link the host is known, and a second link of the same
    records only appends association rows: one more per record. *)
Lemma map_domain_to_ciphers_again host cs conn once :
  map_domain_to_ciphers host cs conn = Return once →
  ∃ id twice added,
    select_domain_id once host = Some id ∧
    map_domain_to_ciphers host cs (insert_ciphers_to_db cs once) = Return twice ∧
    domain_names twice = domain_names once ∧
    domain_ciphers twice = domain_ciphers once ++ added ∧
    (λ dc, (dc_domain_id dc, dc_cipher_id dc)) <$> added
      = (λ c, (Some id, Some (cipher_id c))) <$> cs.
Proof.
  intros Honce.
  assert (∃ id, select_domain_id once host = Some id) as [id Hid].
  { destruct (select_domain_id conn host) as [id|] eqn:Hsel.
    - rewrite (map_domain_to_ciphers_known _ _ _ _ Hsel) in Honce.
      injection Honce as <-. exists id.
      destruct (link_rows_frame id cs conn) as (_ & Hdn & _).
      unfold select_domain_id in *. by rewrite Hdn.
    - destruct (map_domain_to_ciphers_unknown host cs conn Hsel)
        as (conn1 & id & _ & Hdn1 & _ & _ & _ & E).
      rewrite E in Honce. injection Honce as <-. exists id.
      destruct (link_rows_frame id cs conn1) as (_ & Hdn & _).
      unfold select_domain_id. rewrite Hdn, Hdn1, filter_app.
      apply select_domain_id_None in Hsel.
      rewrite (proj2 (filter_nil_iff _ (domain_names conn))).
      + rewrite filter_cons, decide_True by done. done.
      + intros dn Hdn' Hname. apply Hsel, list_elem_of_fmap. eauto. }
  destruct (insert_ciphers_to_db_frame cs once) as (_ & Hdn & Hdc & _).
  assert (select_domain_id (insert_ciphers_to_db cs once) host = Some id) as Hid'.
  { unfold select_domain_id in *. by rewrite Hdn. }
  destruct (link_rows_appends id cs (insert_ciphers_to_db cs once)) as (added & E & Hadd).
  destruct (link_rows_frame id cs (insert_ciphers_to_db cs once)) as (_ & Hdn2 & _).
  exists id, (fold_left (insert_or_ignore_domain_cipher id) cs (insert_ciphers_to_db cs once)), added.
  split; [done|]. split; [by apply map_domain_to_ciphers_known|].
  split; [by rewrite Hdn2|]. split; [by rewrite E, Hdc|done].
Qed.

End map_domain.

(** The repeated pair of calls raises nothing and leaves the [ciphers] and
    [domain_names] tables as the first pair left them, but it appends one
    association row for every record once more. *)
Lemma upsert_and_link_twice host cs conn :
  ∃ once twice,
    map_domain_to_ciphers host cs (insert_ciphers_to_db cs conn) = Return once ∧
    map_domain_to_ciphers host cs (insert_ciphers_to_db cs once) = Return twice ∧
    domain_names twice = domain_names once ∧
    length (domain_ciphers twice) = (length (domain_ciphers once) + length cs)%nat.
Proof.
  destruct (map_domain_to_ciphers_returns host cs (insert_ciphers_to_db cs conn))
    as [once Honce].
  destruct (map_domain_to_ciphers_again _ _ _ _ Honce)
    as (id & twice & added & _ & Htwice & Hdn & Hdc & Hadd).
  exists once, twice. repeat split; [done..|].
  rewrite Hdc, length_app. f_equal.
  by rewrite <- (length_fmap (λ dc, (dc_domain_id dc, dc_cipher_id dc))), Hadd, length_fmap.
Qed.

(** C1, evaluated. On a store that knows [a.example.com] and has nothing
    scanned, upserting and linking the one record [C1] gives one
    association row for the pair; doing both once more raises nothing and
    gives a second row for the same pair: the row sets differ. *)
Theorem repeated_link_duplicates_association :
  ∃ once twice,
    map_domain_to_ciphers "a.example.com" [tls12_preferred]
      (insert_ciphers_to_db [tls12_preferred] sample_store) = Return once ∧
    map_domain_to_ciphers "a.example.com" [tls12_preferred]
      (insert_ciphers_to_db [tls12_preferred] once) = Return twice ∧
    association_rows once "a.example.com" "C1" =
      [ {| dc_id := 1; dc_domain_id := Some 1; dc_cipher_id := Some "C1" |} ] ∧
    association_rows twice "a.example.com" "C1" =
      [ {| dc_id := 1; dc_domain_id := Some 1; dc_cipher_id := Some "C1" |};
        {| dc_id := 2; dc_domain_id := Some 1; dc_cipher_id := Some "C1" |} ] ∧
    domain_ciphers twice ≠ domain_ciphers once.
Proof.
  eexists _, _. split; [vm_compute; reflexivity|].
  split; [vm_compute; reflexivity|].
  split; [vm_compute; reflexivity|].
  split; [vm_compute; reflexivity|].
  vm_compute. discriminate.
Qed.

(** ** The skip policy *)

Section skip_query.

Lemma elem_of_left_join {A B} (on : A → B → bool) (l : list A) (r : list B) a ob :
  (a, ob) ∈ left_join on l r ↔
  a ∈ l ∧ match ob with
          | Some b => b ∈ r ∧ on a b
          | None => ∀ b, b ∈ r → ¬ on a b
          end.
Proof.
  unfold left_join. rewrite list_elem_of_bind. split.
  - intros (a' & Hin & Ha').
    destruct (filter (λ b, on a' b) r) as [|b0 bs] eqn:Hf.
    + apply list_elem_of_singleton in Hin as [= -> ->]. split; [done|].
      by apply (filter_nil_iff (λ b, on a' b)).
    + apply list_elem_of_fmap in Hin as (b & [= -> ->] & Hb). split; [done|].
      rewrite <- Hf in Hb. by apply list_elem_of_filter in Hb as [? ?].
  - intros [Ha Hob]. exists a. split; [|done].
    destruct ob as [b|].
    + destruct Hob as [Hb Hon].
      assert (b ∈ filter (λ b, on a b) r) as Hin by by apply list_elem_of_filter.
      destruct (filter (λ b, on a b) r) as [|b0 bs]; [by apply elem_of_nil in Hin|].
      apply list_elem_of_fmap. eauto.
    + apply (filter_nil_iff (λ b, on a b)) in Hob. rewrite Hob. by left.
Qed.

Lemma length_filter_pos {A} (P : A → Prop) `{!∀ x, Decision (P x)} (l : list A) :
  (0 < length (filter P l))%nat ↔ ∃ x, x ∈ l ∧ P x.
Proof.
  split.
  - destruct (filter P l) as [|x xs] eqn:Hf; simpl; [lia|]. intros _.
    assert (x ∈ filter P l) as Hx by (rewrite Hf; left).
    apply list_elem_of_filter in Hx as [? ?]. eauto.
  - intros (x & Hx & HP).
    assert (x ∈ filter P l) as Hin by by apply list_elem_of_filter.
    destruct (filter P l); [by apply elem_of_nil in Hin|simpl; lia].
Qed.

(** The query counts something exactly when an association row, the
    domain row it points to and the TLD row that one points to line up,
    with the host's name and the flag at 1. *)
Lemma skip_count_pos conn host :
  (0 < skip_count conn host)%nat ↔
  ∃ dc dn t,
    dc ∈ domain_ciphers conn ∧ dn ∈ domain_names conn ∧ t ∈ tlds conn ∧
    dc_domain_id dc = Some (dn_id dn) ∧ name_value dn = host ∧
    dn_tld_id dn = Some (tld_id t) ∧ skip_existing t = Some 1.
Proof.
  unfold skip_count. rewrite length_filter_pos. split.
  - intros ([[dc odn] ot] & Hin & Hname & Hskip).
    destruct odn as [dn|]; [|done]. destruct ot as [t|]; [|done].
    simpl in Hname, Hskip. injection Hname as Hname.
    apply elem_of_left_join in Hin as [Hin [Ht Hon2]].
    apply elem_of_left_join in Hin as [Hdc [Hdn Hon1]].
    apply bool_decide_unpack in Hon1, Hon2. simpl in Hon2.
    exists dc, dn, t. auto 10.
  - intros (dc & dn & t & Hdc & Hdn & Ht & Hid & Hname & Htld & Hskip).
    exists (dc, Some dn, Some t). split.
    + apply elem_of_left_join. split.
      * apply elem_of_left_join. split; [done|]. split; [done|].
        by apply bool_decide_pack.
      * split; [done|]. by apply bool_decide_pack.
    + simpl. by rewrite Hname.
Qed.

(** Under the UNIQUE constraint on [name_value], that is the two
    conditions of the skip policy taken together. *)
Lemma skip_count_policy conn host :
  NoDup (name_value <$> domain_names conn) →
  (0 < skip_count conn host)%nat ↔
  has_association conn host ∧ parent_tld_skips conn host.
Proof.
  intros Hunique. rewrite skip_count_pos. split.
  - intros (dc & dn & t & ? & ? & ? & ? & ? & ? & ?). split.
    + exists dc, dn. auto.
    + exists dn, t. auto 10.
  - intros [(dc & dn & Hdc & Hdn & Hname & Hid)
            (dn' & t & Hdn' & Hname' & Ht & Htld & Hskip)].
    assert (dn' = dn) as ->.
    { apply list_elem_of_lookup in Hdn as [i Hi], Hdn' as [j Hj].
      assert (i = j) as ->; [|congruence].
      eapply NoDup_lookup; [exact Hunique| |].
      - rewrite list_lookup_fmap, Hi. simpl. by rewrite Hname.
      - rewrite list_lookup_fmap, Hj. simpl. by rewrite Hname'. }
    exists dc, dn, t. auto 10.
Qed.

End skip_query.

(** ** The unit of work of one host *)

#[local] Arguments insert_ciphers_to_db : simpl never.
#[local] Arguments map_domain_to_ciphers : simpl never.
#[local] Arguments extract_accepted_ciphers : simpl never.
#[local] Arguments skip_count : simpl never.

Ltac unfold_unit :=
  unfold process_domain_wrapper, try_except_Exception, process_domain,
    run_sslscan_xml, bind, ret, query, print, execute, execute_checked, lift,
    sys_exit, raise, start in *;
  simpl in *.

(** Splits a unit that was not skipped along what the environment answers. *)
Ltac case_scan w host port :=
  destruct (which_sslscan w) eqn:?; simpl;
  [ destruct (sslscan w host port) as [?stdout|?stderr] eqn:?; simpl;
    [ match goal with
      | |- context [extract_accepted_ciphers w ?x] =>
          destruct (extract_accepted_ciphers w x) as [[|?c ?cs]|?e] eqn:?; simpl
      end
    | ]
  | ].

Lemma process_domain_skips w host port s :
  (0 < skip_count (db s) host)%nat →
  process_domain w host port s =
    (Return (Some []), {| db := db s; out := out s ++ [Print_skipping host] |}).
Proof. intros H. unfold_unit. by rewrite decide_True. Qed.

(** A unit that is not skipped announces itself and enters
    [run_sslscan_xml], which starts the subprocess when sslscan is there
    and reports its absence when it is not. *)
Lemma process_domain_scans w host port s :
  skip_count (db s) host = 0%nat →
  ∃ rest,
    out (process_domain w host port s).2 =
      out s ++ Print_processing host port ::
               (if which_sslscan w then Run_sslscan host port
                else Print_not_installed) :: rest.
Proof.
  intros H. unfold_unit. rewrite H. rewrite decide_False by lia.
  case_scan w host port;
    repeat match goal with
    | |- context [map_domain_to_ciphers ?h ?c ?st] =>
        destruct (map_domain_to_ciphers h c st); simpl
    end;
    rewrite <- ?app_assoc; simpl; eauto.
Qed.

(** C3. On a store that keeps [name_value] unique, [process_domain] takes
    its skip exit (it prints that the host is skipped, prints and runs
    nothing else, returns [[]] and leaves the store as it was) exactly when
    the host has an association row and the TLD row its domain row points
    to has [skip_existing] equal to 1; in every other case it goes on into
    [run_sslscan_xml]. *)
Theorem process_domain_skip_iff w host port conn :
  NoDup (name_value <$> domain_names conn) →
  ∃ r s,
    process_domain w host port (start conn) = (r, s) ∧
    ((r = Return (Some []) ∧ s = {| db := conn; out := [Print_skipping host] |})
       ↔ has_association conn host ∧ parent_tld_skips conn host) ∧
    (¬ (has_association conn host ∧ parent_tld_skips conn host) →
       ∃ rest,
         out s = Print_processing host port ::
                 (if which_sslscan w then Run_sslscan host port
                  else Print_not_installed) :: rest).
Proof.
  intros Hunique. pose proof (skip_count_policy conn host Hunique) as Hpolicy.
  destruct (process_domain w host port (start conn)) as [r s] eqn:Hrun.
  exists r, s. split; [done|].
  destruct (decide (0 < skip_count conn host)%nat) as [Hpos|Hzero].
  - rewrite process_domain_skips in Hrun by done. injection Hrun as <- <-.
    split; [|by intros []; apply Hpolicy].
    split; [by intros _; apply Hpolicy|done].
  - assert (skip_count conn host = 0%nat) as H0 by lia.
    destruct (process_domain_scans w host port (start conn) H0) as [rest Hout].
    rewrite Hrun in Hout. simpl in Hout. split.
    + split; [|by intros ?%Hpolicy].
      intros [_ ->]. simpl in Hout. discriminate.
    + intros _. eauto.
Qed.

Lemma process_domain_skip_iff_witness :
  NoDup (name_value <$> domain_names scanned_store) ∧
  ∃ r s,
    process_domain sample_world "a.example.com" 443 (start scanned_store) = (r, s) ∧
    ((r = Return (Some []) ∧
      s = {| db := scanned_store; out := [Print_skipping "a.example.com"] |})
       ↔ has_association scanned_store "a.example.com" ∧
         parent_tld_skips scanned_store "a.example.com").
Proof.
  assert (NoDup (name_value <$> domain_names scanned_store)) as Hunique.
  { apply (bool_decide_unpack _). vm_compute. exact I. }
  split; [exact Hunique|].
  destruct (process_domain_skip_iff sample_world "a.example.com" 443 scanned_store Hunique)
    as (r & s & Hrun & Hiff & _).
  exists r, s. split; [exact Hrun|exact Hiff].
Defined.

(** C5. When the host is not skipped, sslscan is there and exits with
    status 0, and its report parses to no accepted cipher, the unit returns
    [[]] without raising and leaves the store exactly as it found it (no
    cipher row, no association row, nothing that marks the host as
    scanned); a later unit for the host on that store, in any environment
    and whatever the TLD's flag, is not skipped either and enters
    [run_sslscan_xml] again. *)
Theorem empty_scan_leaves_host_unmarked w host port conn xml_data :
  skip_count conn host = 0%nat →
  which_sslscan w = true →
  sslscan w host port = Exit0 xml_data →
  extract_accepted_ciphers w xml_data = Return [] →
  ∃ s,
    process_domain w host port (start conn) = (Return (Some []), s) ∧
    db s = conn ∧
    out s = [Print_processing host port; Run_sslscan host port;
             Print_no_accepted host port] ∧
    ∀ w' port', ∃ rest,
      out (process_domain w' host port' (start (db s))).2 =
        Print_processing host port' ::
        (if which_sslscan w' then Run_sslscan host port'
         else Print_not_installed) :: rest.
Proof.
  intros Hzero Hwhich Hscan Hparse. eexists. split.
  - unfold_unit. rewrite Hzero, decide_False by lia. rewrite Hwhich. simpl.
    rewrite Hscan. simpl. rewrite Hparse. simpl. reflexivity.
  - simpl. repeat split. intros w' port'.
    apply (process_domain_scans w' host port' (start conn) Hzero).
Qed.

Lemma empty_scan_leaves_host_unmarked_witness :
  skip_count (store_with [host_row 1 "c.example.com"]) "c.example.com" = 0%nat ∧
  parent_tld_skips (store_with [host_row 1 "c.example.com"]) "c.example.com" ∧
  ∃ s,
    process_domain sample_world "c.example.com" 443
      (start (store_with [host_row 1 "c.example.com"])) = (Return (Some []), s) ∧
    db s = store_with [host_row 1 "c.example.com"].
Proof.
  split; [vm_compute; reflexivity|]. split.
  { exists (host_row 1 "c.example.com"), sample_tld.
    repeat split; vm_compute; by left. }
  destruct (empty_scan_leaves_host_unmarked sample_world "c.example.com" 443
              (store_with [host_row 1 "c.example.com"]) "rejecting")
    as (s & Hrun & Hdb & _);
    [vm_compute; reflexivity|reflexivity|vm_compute; reflexivity
    |vm_compute; reflexivity|].
  exists s. split; [exact Hrun|exact Hdb].
Defined.

(** ** Hosts the store creates itself *)

Section without_parent.

Lemma without_tld_skip_count conn host :
  without_tld conn host → skip_count conn host = 0%nat.
Proof.
  intros [_ Hnone].
  destruct (decide (0 < skip_count conn host)%nat) as [Hpos|]; [|lia].
  apply skip_count_pos in Hpos
    as (dc & dn & t & _ & Hdn & _ & _ & Hname & Htld & _).
  rewrite (Hnone dn Hdn Hname) in Htld. discriminate.
Qed.

Lemma without_tld_same_names conn conn' host :
  domain_names conn' = domain_names conn →
  without_tld conn host → without_tld conn' host.
Proof. unfold without_tld. by intros ->. Qed.

Lemma without_tld_app conn conn' host rows :
  domain_names conn' = domain_names conn ++ rows →
  (∀ dn, dn ∈ rows → name_value dn = host → dn_tld_id dn = None) →
  without_tld conn host → without_tld conn' host.
Proof.
  unfold without_tld. intros -> Hrows [Hin Hnone]. split.
  - rewrite fmap_app. apply elem_of_app. by left.
  - intros dn [?|?]%elem_of_app; auto.
Qed.

Lemma without_tld_map_domain_to_ciphers host' cs conn conn' host :
  map_domain_to_ciphers host' cs conn = Return conn' →
  without_tld conn host → without_tld conn' host.
Proof.
  intros Hmap.
  destruct (select_domain_id conn host') as [id|] eqn:Hsel.
  - rewrite (map_domain_to_ciphers_known _ _ _ _ Hsel) in Hmap.
    injection Hmap as <-. apply without_tld_same_names.
    by destruct (link_rows_frame id cs conn) as (_ & -> & _).
  - destruct (map_domain_to_ciphers_unknown host' cs conn Hsel)
      as (conn1 & id & _ & Hdn1 & _ & _ & _ & E).
    rewrite E in Hmap. injection Hmap as <-.
    destruct (link_rows_frame id cs conn1) as (_ & Hdn & _).
    eapply without_tld_app; [by rewrite Hdn, Hdn1|].
    by intros dn ->%list_elem_of_singleton.
Qed.

Lemma without_tld_process_domain w host' port s host :
  without_tld (db s) host →
  without_tld (db (process_domain w host' port s).2) host.
Proof.
  intros Hinv. unfold_unit.
  destruct (decide (0 < skip_count (db s) host')%nat); simpl; [done|].
  case_scan w host' port; try done.
  assert (without_tld (insert_ciphers_to_db (c :: cs) (db s)) host) as Hins.
  { eapply without_tld_same_names; [|exact Hinv].
    by destruct (insert_ciphers_to_db_frame (c :: cs) (db s)) as (_ & -> & _). }
  destruct (map_domain_to_ciphers _ _ _) as [conn'|e] eqn:Hmap; simpl; [|done].
  by eapply without_tld_map_domain_to_ciphers.
Qed.

Lemma without_tld_insert_or_ignore_domain_name conn row host :
  without_tld conn host →
  without_tld (insert_or_ignore_domain_name conn row) host.
Proof.
  destruct row as [[tld name] answer]. intros Hinv.
  unfold insert_or_ignore_domain_name. case_decide as Hin; [done|].
  eapply without_tld_app; [done| |exact Hinv].
  intros dn ->%list_elem_of_singleton; simpl. intros ->.
  by destruct Hinv.
Qed.

Lemma without_tld_store_fetched_domains resolve tld domains conn host :
  without_tld conn host →
  without_tld (store_fetched_domains resolve tld domains conn) host.
Proof.
  unfold store_fetched_domains. destruct domains as [|d ds]; [done|].
  generalize ((λ domain, (tld, wildcard_name domain, resolve (wildcard_name domain)))
                <$> d :: ds).
  intros data. revert conn. induction data as [|row data IH]; intros conn Hinv;
    simpl; [done|].
  by apply IH, without_tld_insert_or_ignore_domain_name.
Qed.

Lemma without_tld_later conn conn' host :
  later_store conn conn' → without_tld conn host → without_tld conn' host.
Proof.
  induction 1 as [|conn' w host' port printed _ IH
                  |conn' resolve tld domains _ IH|conn' ts _ IH]; intros Hinv.
  - done.
  - by apply (without_tld_process_domain w host' port
                {| db := conn'; out := printed |}), IH.
  - by apply without_tld_store_fetched_domains, IH.
  - by apply (without_tld_same_names conn'), IH.
Qed.

End without_parent.

(** C10. When the store has no row for the host, [map_domain_to_ciphers]
    creates one whose [tld_id] is NULL. From then on, in every store that
    units of work, the producer's inserts and changes of the TLD table make
    of it, the skip query counts nothing for that host whatever
    associations it has, and [process_domain] is not skipped and enters
    [run_sslscan_xml]. *)
Theorem created_host_is_never_skipped host cs conn :
  host ∉ name_value <$> domain_names conn →
  ∃ conn' id,
    map_domain_to_ciphers host cs conn = Return conn' ∧
    domain_names conn' = domain_names conn ++
      [ {| dn_id := id; dn_tld_id := None; name_value := host;
           resolver_answer := Some "" |} ] ∧
    length (domain_ciphers conn') = (length (domain_ciphers conn) + length cs)%nat ∧
    ∀ conn'', later_store conn' conn'' →
      skip_count conn'' host = 0%nat ∧
      ∀ w port, ∃ rest,
        out (process_domain w host port (start conn'')).2 =
          Print_processing host port ::
          (if which_sslscan w then Run_sslscan host port
           else Print_not_installed) :: rest.
Proof.
  intros Hnew. pose proof (proj2 (select_domain_id_None conn host) Hnew) as Hsel.
  destruct (map_domain_to_ciphers_unknown host cs conn Hsel)
    as (conn1 & id & _ & Hdn1 & _ & _ & Hdc1 & E).
  destruct (link_rows_frame id cs conn1) as (_ & Hdn & _).
  destruct (link_rows_appends id cs conn1) as (added & Hdc & Hadd).
  eexists _, id. split; [exact E|]. split; [by rewrite Hdn, Hdn1|]. split.
  { rewrite Hdc, Hdc1, length_app. f_equal.
    by rewrite <- (length_fmap (λ dc, (dc_domain_id dc, dc_cipher_id dc))),
      Hadd, length_fmap. }
  intros conn'' Hlater.
  assert (without_tld conn'' host) as Hinv.
  { eapply without_tld_later; [exact Hlater|]. split.
    - rewrite Hdn, Hdn1, fmap_app. apply elem_of_app. right. by left.
    - rewrite Hdn, Hdn1. intros dn [Hold| ->%list_elem_of_singleton]%elem_of_app Hname;
        [|done].
      exfalso. apply Hnew, list_elem_of_fmap. eauto. }
  pose proof (without_tld_skip_count _ _ Hinv) as Hzero.
  split; [done|]. intros w port.
  apply (process_domain_scans w host port (start conn'') Hzero).
Qed.

Lemma created_host_is_never_skipped_witness :
  ("new.example.com" ∉ name_value <$> domain_names scanned_store) ∧
  ∃ conn' id,
    map_domain_to_ciphers "new.example.com" [tls12_preferred] scanned_store
      = Return conn' ∧
    domain_names conn' = domain_names scanned_store ++
      [ {| dn_id := id; dn_tld_id := None; name_value := "new.example.com";
           resolver_answer := Some "" |} ] ∧
    skip_count conn' "new.example.com" = 0%nat.
Proof.
  assert ("new.example.com" ∉ name_value <$> domain_names scanned_store) as Hnew.
  { apply (bool_decide_unpack _). vm_compute. exact I. }
  split; [exact Hnew|].
  destruct (created_host_is_never_skipped "new.example.com" [tls12_preferred]
              scanned_store Hnew) as (conn' & id & Hmap & Hrow & _ & Hlater).
  exists conn', id. split; [exact Hmap|]. split; [exact Hrow|].
  exact (proj1 (Hlater conn' (later_now conn'))).
Defined.

(** ** The producer's wildcard names *)

Section wildcard.

Lemma wildcard_name_star domain :
  startswith "*" domain = true →
  wildcard_name domain = "WILDCARD" +:+ slice_from_1 domain.
Proof. intros H. unfold wildcard_name. by rewrite H. Qed.

(** Whatever the name fetched, the name stored does not begin with [*]. *)
Lemma wildcard_name_no_star domain :
  startswith "*" (wildcard_name domain) = false.
Proof.
  unfold wildcard_name. destruct (startswith "*" domain) eqn:H; [|done].
  reflexivity.
Qed.

Lemma insert_or_ignore_domain_name_appends conn tld name answer :
  ∃ added,
    domain_names (insert_or_ignore_domain_name conn (tld, name, answer))
      = domain_names conn ++ added ∧
    (∀ row, row ∈ added → name_value row = name ∧ dn_tld_id row = Some tld) ∧
    name ∈ name_value <$>
      domain_names (insert_or_ignore_domain_name conn (tld, name, answer)).
Proof.
  unfold insert_or_ignore_domain_name. case_decide as Hin.
  - exists []. rewrite app_nil_r. split; [done|].
    split; [by intros row ?%elem_of_nil|done].
  - eexists. simpl. split; [done|]. split.
    + by intros row ->%list_elem_of_singleton.
    + rewrite fmap_app. apply elem_of_app. right. by left.
Qed.

Lemma executemany_appends data conn :
  ∃ added,
    domain_names (fold_left insert_or_ignore_domain_name data conn)
      = domain_names conn ++ added ∧
    (∀ row, row ∈ added →
       ∃ tld name answer, (tld, name, answer) ∈ data ∧
         name_value row = name ∧ dn_tld_id row = Some tld) ∧
    (∀ tld name answer, (tld, name, answer) ∈ data →
       name ∈ name_value <$>
         domain_names (fold_left insert_or_ignore_domain_name data conn)).
Proof.
  revert conn. induction data as [|[[tld name] answer] data IH]; intros conn;
    cbn [fold_left].
  - exists []. rewrite app_nil_r. split; [done|].
    split; [by intros row ?%elem_of_nil|by intros ? ? ? ?%elem_of_nil].
  - destruct (insert_or_ignore_domain_name_appends conn tld name answer)
      as (a1 & E1 & H1 & Hin1).
    destruct (IH (insert_or_ignore_domain_name conn (tld, name, answer)))
      as (a2 & E2 & H2 & Hin2).
    exists (a1 ++ a2). split; [by rewrite E2, E1, app_assoc|]. split.
    + intros row [Hr|Hr]%elem_of_app.
      * destruct (H1 row Hr) as [? ?]. exists tld, name, answer.
        split; [left|done].
      * destruct (H2 row Hr) as (tld' & name' & answer' & ? & ? & ?).
        exists tld', name', answer'. split; [by right|done].
    + intros tld' name' answer' [[= -> -> ->]|Hd]%elem_of_cons; [|by eapply Hin2].
      rewrite E2, fmap_app. apply elem_of_app. by left.
Qed.

End wildcard.

(** C9. A fetched name that begins with [*] is stored with that [*]
    replaced by [WILDCARD] ([*.example.com] as [WILDCARD.example.com]):
    after the insert the table has a row of that name, which does not begin
    with [*]; and the rows the insert adds come after the rows that were
    there, each under the TLD, named after a fetched name by the same rule,
    none of them beginning with [*]. *)
Theorem wildcard_stored_with_sentinel resolve tld domains conn domain :
  domain ∈ domains →
  startswith "*" domain = true →
  wildcard_name "*.example.com" = "WILDCARD.example.com" ∧
  wildcard_name domain = "WILDCARD" +:+ slice_from_1 domain ∧
  startswith "*" (wildcard_name domain) = false ∧
  wildcard_name domain ∈
    name_value <$> domain_names (store_fetched_domains resolve tld domains conn) ∧
  ∃ added,
    domain_names (store_fetched_domains resolve tld domains conn)
      = domain_names conn ++ added ∧
    ∀ row, row ∈ added →
      startswith "*" (name_value row) = false ∧
      dn_tld_id row = Some tld ∧
      ∃ d, d ∈ domains ∧ name_value row = wildcard_name d.
Proof.
  intros Hin Hstar. split; [reflexivity|].
  split; [by apply wildcard_name_star|].
  split; [by apply wildcard_name_no_star|].
  unfold store_fetched_domains.
  destruct domains as [|d0 ds] eqn:Hds; [by apply elem_of_nil in Hin|].
  rewrite <- Hds in *. clear Hds d0 ds.
  destruct (executemany_appends
              ((λ d, (tld, wildcard_name d, resolve (wildcard_name d))) <$> domains) conn)
    as (added & E & Hadded & Hnames).
  split.
  - eapply Hnames. apply list_elem_of_fmap. exists domain. split; [reflexivity|done].
  - exists added. split; [done|]. intros row Hrow.
    destruct (Hadded row Hrow) as (tld' & name & answer & Hdata & Hname & Htld).
    apply list_elem_of_fmap in Hdata as (d & [= -> -> ->] & Hd).
    split; [by rewrite Hname; apply wildcard_name_no_star|].
    split; [done|]. eauto.
Qed.

Lemma wildcard_stored_with_sentinel_witness :
  "*.example.com" ∈ ["www.example.com"; "*.example.com"] ∧
  startswith "*" "*.example.com" = true ∧
  "WILDCARD.example.com" ∈
    name_value <$> domain_names
      (store_fetched_domains (λ _, "[]") 1 ["www.example.com"; "*.example.com"]
         sample_store).
Proof.
  assert ("*.example.com" ∈ ["www.example.com"; "*.example.com"]) as Hin.
  { apply (bool_decide_unpack _). vm_compute. exact I. }
  split; [exact Hin|]. split; [reflexivity|].
  exact (proj1 (proj2 (proj2 (proj2
    (wildcard_stored_with_sentinel (λ _, "[]") 1
       ["www.example.com"; "*.example.com"] sample_store "*.example.com"
       Hin eq_refl))))).
Defined.

(** ** Failures, the result loop and the exit status *)

Section units.

Context (w : world).

(** How the unit of a host ends, by cases: the wrapper returns, except
    when [run_sslscan_xml] has called [sys.exit]. *)
Lemma process_domain_wrapper_outcome host port s :
  (process_domain_wrapper w host port s).1 =
    if decide (0 < skip_count (db s) host)%nat then Return (host, true)
    else if which_sslscan w then
      match sslscan w host port with
      | CalledProcessError _ => Raise (SystemExit 1)
      | Exit0 stdout =>
          match fromstring w stdout with
          | Some _ => Return (host, true)
          | None => Return (host, false)
          end
      end
    else Raise (SystemExit 1).
Proof.
  unfold_unit. destruct (decide (0 < skip_count (db s) host)%nat); simpl; [done|].
  destruct (which_sslscan w); simpl; [|done].
  destruct (sslscan w host port) as [stdout|stderr]; simpl; [|done].
  unfold extract_accepted_ciphers. destruct (fromstring w stdout); simpl; [|done].
  destruct (fold_left _ _ _) as [|c cs]; simpl; [done|].
  by destruct (map_domain_to_ciphers_returns host (c :: cs)
                 (insert_ciphers_to_db (c :: cs) (db s))) as [conn' ->].
Qed.

(** A unit prints no tally line. *)
Lemma process_domain_wrapper_processed host port s :
  processed_hosts (out (process_domain_wrapper w host port s).2)
    = processed_hosts (out s).
Proof.
  unfold processed_hosts. unfold_unit.
  destruct (decide (0 < skip_count (db s) host)%nat); simpl;
    [by rewrite omap_app, app_nil_r|].
  case_scan w host port;
    repeat match goal with
    | |- context [map_domain_to_ciphers ?h ?c ?st] =>
        destruct (map_domain_to_ciphers h c st); simpl
    | |- context [is_Exception ?e] => destruct (is_Exception e); simpl
    end;
    rewrite ?omap_app; simpl; by rewrite ?app_nil_r.
Qed.

(** Without sslscan a unit starts no subprocess and writes nothing. *)
Lemma process_domain_wrapper_without_sslscan host port s :
  which_sslscan w = false →
  db (process_domain_wrapper w host port s).2 = db s ∧
  ∀ h p, Run_sslscan h p ∈ out (process_domain_wrapper w host port s).2 →
         Run_sslscan h p ∈ out s.
Proof.
  intros Hwhich. unfold_unit. rewrite Hwhich.
  destruct (decide (0 < skip_count (db s) host)%nat); simpl; (split; [done|]);
    intros h p Hin; repeat (apply elem_of_app in Hin as [Hin|Hin]); try done;
    by apply list_elem_of_singleton in Hin.
Qed.

(** The pool runs the unit of every host it is given, and each future
    holds what its unit returned or raised; [Inv] is any property of the
    state that the units keep, [Holds] any property of a host's future
    that its unit establishes. *)
Lemma run_pool_spec (Inv : state → Prop) (Holds : string → outcome (string * bool) → Prop)
    hosts s :
  (∀ host s0, host ∈ hosts → Inv s0 →
     Inv (process_domain_wrapper w host 443 s0).2 ∧
     Holds host (process_domain_wrapper w host 443 s0).1) →
  Inv s →
  ∃ futures s',
    run_pool w hosts s = (Return futures, s') ∧ Inv s' ∧
    Forall2 Holds hosts futures.
Proof.
  revert s. induction hosts as [|host hosts IH]; intros s Hunit Hs; simpl.
  - exists [], s. by repeat split.
  - unfold bind, submit, ret.
    destruct (process_domain_wrapper w host 443 s) as [f s1] eqn:Hf.
    destruct (Hunit host s (ltac:(left)) Hs) as [Hs1 Hholds]. rewrite Hf in Hs1, Hholds.
    destruct (IH s1) as (fs & s' & Hrun & Hs' & Hall); [|done|].
    { intros h s0 Hh. apply Hunit. by right. }
    rewrite Hrun. exists (f :: fs), s'. repeat split; [done|]. by constructor.
Qed.

End units.

Lemma tally_spec futures completed total s :
  tally futures completed total s =
    (match first_raise futures with None => Return tt | Some e => Raise e end,
     {| db := db s; out := out s ++ tally_lines futures completed total |}).
Proof.
  revert completed s. induction futures as [|[[host success]|e] futures IH];
    intros completed s; simpl.
  - unfold ret. rewrite app_nil_r. by destruct s.
  - unfold bind, result, lift, print. rewrite IH. simpl.
    by rewrite <- app_assoc.
  - unfold bind, result, lift. rewrite app_nil_r. by destruct s.
Qed.

Lemma tally_lines_hosts futures completed total :
  first_raise futures = None →
  processed_hosts (tally_lines futures completed total) =
    omap (λ f, match f with Return (host, _) => Some host | Raise _ => None end) futures.
Proof.
  revert completed. induction futures as [|[[host success]|e] futures IH];
    intros completed Hnone; simpl in *; [done| |done].
  unfold processed_hosts in *. simpl. by rewrite IH.
Qed.

(** The exit status is decided by the first raise among the futures. *)
Lemma main_spec w as_completed conn futures s' :
  domain_names conn ≠ [] →
  run_pool w (as_completed (name_value <$> domain_names conn))
    {| db := conn;
       out := [Print_processing_domains (length (name_value <$> domain_names conn));
               Print_workers (32 `min` length (name_value <$> domain_names conn))] |}
    = (Return futures, s') →
  main w as_completed conn =
    (match first_raise futures with
     | None => 0
     | Some (SystemExit code) => code
     | Some _ => 1
     end,
     {| db := db s';
        out := out s' ++
               tally_lines futures 0 (length (name_value <$> domain_names conn)) ++
               match first_raise futures with
               | None => [Print_all_processed]
               | Some _ => []
               end |}).
Proof.
  intros Hne Hrun. unfold main, process_domains, bind, query, print.
  cbn [db out start app].
  destruct (name_value <$> domain_names conn) as [|d ds] eqn:Hd.
  { by destruct (domain_names conn). }
  match type of Hrun with
  | run_pool _ _ ?st0 = _ =>
      match goal with |- context [run_pool _ _ ?st] => change st with st0 end
  end.
  rewrite Hrun, tally_spec. cbn [db out].
  destruct (first_raise futures) as [[| |code]|]; rewrite ?app_nil_r; try done.
  by rewrite <- app_assoc.
Qed.

Lemma main_no_domains w as_completed conn :
  domain_names conn = [] →
  main w as_completed conn = (0, {| db := conn; out := [Print_no_domains] |}).
Proof. intros H. unfold main, process_domains, bind, query, print. simpl. by rewrite H. Qed.

Section futures.

Context (Holds : string → outcome (string * bool) → Prop) (P : string → Prop).

(** When every future holds its host's result or a [SystemExit 1] that
    [P] explains, the first raise is such a [SystemExit] or there is
    none and the futures are the results of the hosts, in order. *)
Lemma first_raise_cases hosts futures :
  Forall2 Holds hosts futures →
  (∀ h f, Holds h f →
     (∃ ok, f = Return (h, ok)) ∨ (f = Raise (SystemExit 1) ∧ P h)) →
  (first_raise futures = None ∧
   omap (λ f, match f with Return (host, _) => Some host | Raise _ => None end)
     futures = hosts) ∨
  (first_raise futures = Some (SystemExit 1) ∧ ∃ h, h ∈ hosts ∧ P h).
Proof.
  intros Hall Hcases. induction Hall as [|h f hosts futures Hf _ IH]; [by left|].
  destruct (Hcases h f Hf) as [[ok ->]|[-> HP]]; simpl.
  - destruct IH as [[Hnone Hhosts]|[Hsome (h' & Hh' & HP')]].
    + left. split; [done|]. f_equal. exact Hhosts.
    + right. split; [done|]. exists h'. split; [by right|done].
  - right. split; [done|]. exists h. split; [left|done].
Qed.

Lemma first_raise_None hosts futures :
  Forall2 Holds hosts futures →
  (∀ h f, Holds h f → P h → ∃ e, f = Raise e) →
  first_raise futures = None → ∀ h, h ∈ hosts → ¬ P h.
Proof.
  intros Hall Hraise. induction Hall as [|h f hosts futures Hf _ IH];
    intros Hnone h' Hh'; [by apply elem_of_nil in Hh'|].
  apply elem_of_cons in Hh' as [->|Hh'].
  - intros HP. destruct (Hraise h f Hf HP) as [e ->]. discriminate.
  - destruct f as [a|e]; [by apply IH|discriminate].
Qed.

End futures.

(** When sslscan is there and exits with status 0 for every candidate
    host, no unit raises past its wrapper: the run ends with status 0 and
    has tallied every host, in the order of completion. *)
Lemma run_without_sys_exit w as_completed conn :
  which_sslscan w = true →
  (∀ host, host ∈ name_value <$> domain_names conn →
     ∃ stdout, sslscan w host 443 = Exit0 stdout) →
  as_completed (name_value <$> domain_names conn) ≡ₚ name_value <$> domain_names conn →
  ∃ s, main w as_completed conn = (0, s) ∧
       processed_hosts (out s) = as_completed (name_value <$> domain_names conn).
Proof.
  intros Hwhich Hscan Hperm.
  destruct (decide (domain_names conn = [])) as [Hnil|Hne].
  { rewrite main_no_domains by done. eexists. split; [done|].
    rewrite Hnil in *. apply Permutation_nil_r in Hperm. by rewrite Hperm. }
  destruct (run_pool_spec w (λ s, processed_hosts (out s) = [])
              (λ h f, ∃ ok, f = Return (h, ok))
              (as_completed (name_value <$> domain_names conn))
              {| db := conn;
                 out := [Print_processing_domains (length (name_value <$> domain_names conn));
                         Print_workers (32 `min` length (name_value <$> domain_names conn))] |})
    as (futures & s' & Hrun & Hinv & Hall); [|done|].
  { intros host s0 Hhost Hs0. split.
    - by rewrite process_domain_wrapper_processed.
    - rewrite process_domain_wrapper_outcome, Hwhich.
      destruct (Hscan host) as [stdout ->]; [by rewrite <- Hperm|].
      case_decide; [eauto|]. destruct (fromstring w stdout); eauto. }
  rewrite (main_spec _ _ _ _ _ Hne Hrun).
  destruct (first_raise_cases _ (λ _, False) _ _ Hall) as [[Hnone Hhosts]|[_ (? & _ & [])]].
  { intros h f [ok ->]. left. eauto. }
  rewrite Hnone. eexists. split; [done|]. simpl.
  unfold processed_hosts in *. rewrite !omap_app, Hinv. simpl.
  fold (processed_hosts (tally_lines futures 0 (length (name_value <$> domain_names conn)))).
  by rewrite tally_lines_hosts, Hhosts, app_nil_r.
Qed.

(** C2, as the code has it. A failure of class [Exception] inside a host's
    unit is caught by [process_domain_wrapper], printed, and turned into the
    result [(host, False)]; a [SystemExit], which [run_sslscan_xml] raises
    when sslscan is missing or exits with a non-zero status, passes through
    the wrapper. When sslscan is there and exits with status 0 for every
    candidate host, the run ends with status 0 and a tally line for every
    host, whatever else fails in the units. *)
Theorem exception_contained_at_unit w as_completed conn :
  (∀ host port s e s',
     process_domain w host port s = (Raise e, s') → is_Exception e = true →
     process_domain_wrapper w host port s =
       (Return (host, false),
        {| db := db s'; out := out s' ++ [Print_error_processing host e] |})) ∧
  (∀ host port s code s',
     process_domain w host port s = (Raise (SystemExit code), s') →
     process_domain_wrapper w host port s = (Raise (SystemExit code), s')) ∧
  (which_sslscan w = true →
   (∀ host, host ∈ name_value <$> domain_names conn →
      ∃ stdout, sslscan w host 443 = Exit0 stdout) →
   as_completed (name_value <$> domain_names conn) ≡ₚ name_value <$> domain_names conn →
   ∃ s, main w as_completed conn = (0, s) ∧
        processed_hosts (out s) = as_completed (name_value <$> domain_names conn)).
Proof.
  split; [|split].
  - intros host port s e s' Hrun Hexc.
    unfold process_domain_wrapper, try_except_Exception, bind, ret, print.
    by rewrite Hrun, Hexc.
  - intros host port s code s' Hrun.
    unfold process_domain_wrapper, try_except_Exception, bind, ret.
    by rewrite Hrun.
  - apply run_without_sys_exit.
Qed.

Lemma exception_contained_at_unit_witness :
  ∃ s, main sample_world reverse store_with_bad_report = (0, s) ∧
       processed_hosts (out s) =
         ["c.example.com"; "b.example.com"; "a.example.com"].
Proof.
  apply (proj2 (proj2
    (exception_contained_at_unit sample_world reverse store_with_bad_report))).
  - reflexivity.
  - intros host Hhost. simpl.
    destruct (decide (host = "down.example.com")) as [->|_].
    + exfalso. revert Hhost. apply (bool_decide_unpack _). vm_compute. exact I.
    + repeat case_decide; eauto.
  - apply (bool_decide_unpack _). vm_compute. exact I.
Defined.

(** C2 fails on the code: for [down.example.com], whose scan exits with a
    non-zero status, the wrapper does not return [(host, False)] but lets
    [SystemExit 1] through; the run ends with status 1 and has tallied no
    host, not even [a.example.com], whose unit ran and succeeded. *)
Lemma scanner_failure_not_contained :
  process_domain_wrapper sample_world "down.example.com" 443
    (start store_with_down_host) =
    (Raise (SystemExit 1),
     {| db := store_with_down_host;
        out := [Print_processing "down.example.com" 443;
                Run_sslscan "down.example.com" 443;
                Print_sslscan_error "Connection refused"] |}) ∧
  ∃ s, main sample_world id store_with_down_host = (1, s) ∧
       processed_hosts (out s) = [] ∧
       association_rows (db s) "a.example.com" "C1" ≠ [].
Proof.
  split; [vm_compute; reflexivity|].
  eexists. split; [vm_compute; reflexivity|].
  split; [vm_compute; reflexivity|]. vm_compute. discriminate.
Qed.

(** C6, as the code has it. The run ends with status 0 or 1; status 1
    means that sslscan is missing or that it exited with a non-zero status
    for some candidate host. Without sslscan no subprocess is started and
    the store is left as it was, and the status is 1 exactly when some
    candidate host is not skipped by the skip query; when every host is
    skipped, or there is none, it is 0. *)
Theorem exit_status_of_run w as_completed conn :
  as_completed (name_value <$> domain_names conn) ≡ₚ name_value <$> domain_names conn →
  ∃ code s,
    main w as_completed conn = (code, s) ∧
    (code = 0 ∨ code = 1) ∧
    (code = 1 →
       which_sslscan w = false ∨
       ∃ host stderr, host ∈ name_value <$> domain_names conn ∧
                      sslscan w host 443 = CalledProcessError stderr) ∧
    (which_sslscan w = false →
       db s = conn ∧
       (∀ h p, Run_sslscan h p ∉ out s) ∧
       (code = 1 ↔ ∃ host, host ∈ name_value <$> domain_names conn ∧
                           skip_count conn host = 0%nat)).
Proof.
  intros Hperm.
  destruct (decide (domain_names conn = [])) as [Hnil|Hne].
  { rewrite main_no_domains by done. eexists _, _. split; [done|].
    split; [by left|]. split; [done|]. intros _. simpl. split; [done|]. split.
    - by intros h p ?%list_elem_of_singleton.
    - rewrite Hnil. split; [done|]. by intros (? & ?%elem_of_nil & _). }
  destruct (which_sslscan w) eqn:Hwhich.
  - destruct (run_pool_spec w (λ _, True)
                (λ h f, (∃ ok, f = Return (h, ok)) ∨
                        (f = Raise (SystemExit 1) ∧
                         ∃ stderr, sslscan w h 443 = CalledProcessError stderr))
                (as_completed (name_value <$> domain_names conn))
                {| db := conn;
                   out := [Print_processing_domains (length (name_value <$> domain_names conn));
                           Print_workers (32 `min` length (name_value <$> domain_names conn))] |})
      as (futures & s' & Hrun & _ & Hall); [|done|].
    { intros host s0 _ _. split; [done|].
      rewrite process_domain_wrapper_outcome, Hwhich.
      case_decide; [eauto|].
      destruct (sslscan w host 443) as [stdout|stderr]; [|eauto].
      destruct (fromstring w stdout); eauto. }
    rewrite (main_spec _ _ _ _ _ Hne Hrun).
    destruct (first_raise_cases _ _ _ _ Hall (λ h f H, H))
      as [[-> _]|[-> (h & Hh & stderr & Hfail)]]; eexists _, _.
    + split; [done|]. split; [by left|]. by split.
    + split; [done|]. split; [by right|]. split; [|done].
      intros _. right. exists h, stderr. by rewrite <- Hperm.
  - set (Inv := λ s : state, db s = conn ∧ ∀ h p, Run_sslscan h p ∉ out s).
    set (Holds := λ (h : string) (f : outcome (string * bool)),
           f = if decide (0 < skip_count conn h)%nat then Return (h, true)
               else Raise (SystemExit 1)).
    destruct (run_pool_spec w Inv Holds
                (as_completed (name_value <$> domain_names conn))
                {| db := conn;
                   out := [Print_processing_domains (length (name_value <$> domain_names conn));
                           Print_workers (32 `min` length (name_value <$> domain_names conn))] |})
      as (futures & s' & Hrun & [Hdb Hnoscan] & Hall).
    { intros host s0 _ [Hdb0 Hno0].
      destruct (process_domain_wrapper_without_sslscan w host 443 s0 Hwhich) as [Hdb1 Hno1].
      split; [split|].
      - by rewrite Hdb1.
      - intros h p Hin. by apply (Hno0 h p), Hno1.
      - unfold Holds. by rewrite process_domain_wrapper_outcome, Hwhich, Hdb0. }
    { split; [done|]. intros h p Hin. simpl in Hin.
      repeat (apply elem_of_cons in Hin as [?|Hin]; [done|]).
      by apply elem_of_nil in Hin. }
    rewrite (main_spec _ _ _ _ _ Hne Hrun).
    assert (∀ h f, Holds h f →
              (∃ ok, f = Return (h, ok)) ∨
              (f = Raise (SystemExit 1) ∧ skip_count conn h = 0%nat)) as Hcases.
    { intros h f Hf. unfold Holds in Hf. subst f.
      case_decide; [eauto|]. right. split; [done|lia]. }
    assert (∀ h f, Holds h f → skip_count conn h = 0%nat → ∃ e, f = Raise e) as Hraises.
    { intros h f Hf Hz. unfold Holds in Hf. subst f.
      rewrite decide_False by lia. eauto. }
    assert (∀ lines, (∀ h p, Run_sslscan h p ∉
                        out s' ++ tally_lines futures 0
                          (length (name_value <$> domain_names conn)) ++ lines) ↔
                     ∀ h p, Run_sslscan h p ∉ lines) as Hout.
    { intros lines. split; intros Hno h p Hin.
      - apply (Hno h p). rewrite !elem_of_app. auto.
      - apply elem_of_app in Hin as [Hin|Hin]; [by apply (Hnoscan h p)|].
        apply elem_of_app in Hin as [Hin|Hin]; [|by apply (Hno h p)].
        clear -Hin. revert Hin. generalize 0%nat.
        induction futures as [|[[h' ok]|e] futures IH]; intros k Hin; simpl in Hin;
          [by apply elem_of_nil in Hin| |by apply elem_of_nil in Hin].
        apply elem_of_cons in Hin as [?|Hin]; [done|]. by apply (IH (S k)). }
    destruct (first_raise_cases _ _ _ _ Hall Hcases)
      as [[Hnone _]|[Hsome (h & Hh & Hz)]]; eexists _, _.
    + rewrite Hnone. split; [done|]. split; [by left|]. split; [done|].
      intros _. simpl. split; [done|]. split.
      * apply Hout. by intros h p ?%list_elem_of_singleton.
      * split; [done|]. intros (h & Hh & Hz). exfalso.
        eapply (first_raise_None _ _ _ _ Hall Hraises Hnone h); [|done].
        by rewrite Hperm.
    + rewrite Hsome. split; [done|]. split; [by right|]. split; [by left|].
      intros _. simpl. split; [done|]. split.
      * apply Hout. by intros h' p ?%elem_of_nil.
      * split; [|done]. intros _. exists h. by rewrite <- Hperm.
Qed.

Lemma exit_status_of_run_witness :
  reverse (name_value <$> domain_names store_with_bad_report)
    ≡ₚ name_value <$> domain_names store_with_bad_report ∧
  ∃ code s,
    main world_without_sslscan reverse store_with_bad_report = (code, s) ∧
    (code = 0 ∨ code = 1) ∧
    db s = store_with_bad_report.
Proof.
  assert (reverse (name_value <$> domain_names store_with_bad_report)
            ≡ₚ name_value <$> domain_names store_with_bad_report) as Hperm.
  { apply (bool_decide_unpack _). vm_compute. exact I. }
  split; [exact Hperm|].
  destruct (exit_status_of_run world_without_sslscan reverse store_with_bad_report Hperm)
    as (code & s & Hrun & Hcode & _ & Hmissing).
  exists code, s. split; [exact Hrun|]. split; [exact Hcode|].
  exact (proj1 (Hmissing eq_refl)).
Defined.

(** C6 fails on the code, both ways: without sslscan a run over a store
    with no host, or with every host skipped, ends with status 0; and with
    sslscan installed, the non-zero exit of the scanner for one host ends
    the run with status 1. *)
Lemma exit_status_counterexample :
  which_sslscan world_without_sslscan = false ∧
  (main world_without_sslscan id (store_with [])).1 = 0 ∧
  (main world_without_sslscan id scanned_store).1 = 0 ∧
  which_sslscan sample_world = true ∧
  (main sample_world id store_with_down_host).1 = 1.
Proof. repeat split; vm_compute; reflexivity. Qed.


(** * Further properties *)

(** ** Writes to the [ciphers] table *)

Section cipher_rows.

(** The rows a call adds are the rows of records of the call. *)
Lemma insert_ciphers_to_db_added cs conn :
  ∃ added,
    ciphers (insert_ciphers_to_db cs conn) = ciphers conn ++ added ∧
    ∀ r, r ∈ added →
      (row_cipher_id r ∉ row_cipher_id <$> ciphers conn) ∧
      ∃ c, c ∈ cs ∧ r = cipher_row_of c.
Proof.
  unfold insert_ciphers_to_db. revert conn.
  induction cs as [|c cs IH]; intros conn; cbn [fold_left].
  - exists []. split; [by rewrite app_nil_r|]. by intros r ?%elem_of_nil.
  - destruct (IH (insert_or_ignore_cipher conn c)) as (a2 & E2 & H2).
    unfold insert_or_ignore_cipher in *. case_decide as Hin.
    + exists a2. split; [done|]. intros r Hr. destruct (H2 r Hr) as [? (c' & ? & ?)].
      split; [done|]. exists c'. split; [by right|done].
    + cbn [ciphers] in *. exists (cipher_row_of c :: a2). split.
      { rewrite E2. by rewrite <- app_assoc. }
      intros r [->|Hr]%elem_of_cons.
      * split; [done|]. exists c. split; [left|done].
      * destruct (H2 r Hr) as [Hnew (c' & ? & ?)]. split.
        -- intros Hold. apply Hnew. rewrite fmap_app. apply elem_of_app. by left.
        -- exists c'. split; [by right|done].
Qed.

Lemma insert_ciphers_to_db_app cs1 cs2 conn :
  insert_ciphers_to_db (cs1 ++ cs2) conn =
  insert_ciphers_to_db cs2 (insert_ciphers_to_db cs1 conn).
Proof. unfold insert_ciphers_to_db. apply fold_left_app. Qed.


End cipher_rows.

(** X1. Within one call and across calls the first record under a cipher
    identifier wins: when the identifier is new to the table and no earlier
    record of the list carries it, the call stores that record's values,
    and no other row of the resulting table has the identifier, whatever
    later records of the list say under it. *)
Theorem insert_ciphers_to_db_first_wins cs1 c cs2 conn :
  cipher_id c ∉ row_cipher_id <$> ciphers conn →
  (∀ c', c' ∈ cs1 → cipher_id c' ≠ cipher_id c) →
  cipher_row_of c ∈ ciphers (insert_ciphers_to_db (cs1 ++ c :: cs2) conn) ∧
  ∀ row, row ∈ ciphers (insert_ciphers_to_db (cs1 ++ c :: cs2) conn) →
         row_cipher_id row = cipher_id c → row = cipher_row_of c.
Proof.
  intros Hnew Hfirst.
  rewrite insert_ciphers_to_db_app.
  destruct (insert_ciphers_to_db_added cs1 conn) as (a1 & E1 & H1).
  set (conn1 := insert_ciphers_to_db cs1 conn) in *.
  assert (cipher_id c ∉ row_cipher_id <$> ciphers conn1) as Hnew1.
  { rewrite E1, fmap_app. intros [?|Hin]%elem_of_app; [done|].
    apply list_elem_of_fmap in Hin as (r & Hid & Hr).
    destruct (H1 r Hr) as [_ (c' & Hc' & ->)]. by apply (Hfirst c' Hc'). }
  change (insert_ciphers_to_db (c :: cs2) conn1)
    with (insert_ciphers_to_db cs2 (insert_or_ignore_cipher conn1 c)).
  destruct (insert_ciphers_to_db_added cs2 (insert_or_ignore_cipher conn1 c))
    as (a2 & E2 & H2).
  assert (ciphers (insert_or_ignore_cipher conn1 c) = ciphers conn1 ++ [cipher_row_of c])
    as Estep.
  { unfold insert_or_ignore_cipher. by rewrite decide_False. }
  rewrite E2, Estep in *. split.
  - apply elem_of_app. left. apply elem_of_app. right. by left.
  - intros row [[Hold| ->%list_elem_of_singleton]%elem_of_app|Hadd]%elem_of_app Hid;
      [|done|].
    + exfalso. apply Hnew1. rewrite <- Hid. apply list_elem_of_fmap. eauto.
    + exfalso. destruct (H2 row Hadd) as [Hfresh _]. apply Hfresh.
      rewrite fmap_app. apply elem_of_app. right. rewrite Hid. by left.
Qed.

Lemma insert_ciphers_to_db_first_wins_witness :
  insert_ciphers_to_db
    [tls12_preferred;
     {| sslversion := "TLSv1.3"; cipher_name := "other"; bits := "128";
        cipher_id := "C1"; status := "accepted" |}] sample_store
  = insert_ciphers_to_db [tls12_preferred] sample_store ∧
  cipher_row_of tls12_preferred ∈
    ciphers (insert_ciphers_to_db
      ([] ++ tls12_preferred ::
       [ {| sslversion := "TLSv1.3"; cipher_name := "other"; bits := "128";
            cipher_id := "C1"; status := "accepted" |} ]) sample_store).
Proof.
  split; [vm_compute; reflexivity|].
  apply (insert_ciphers_to_db_first_wins [] tls12_preferred).
  - apply (bool_decide_unpack _). vm_compute. exact I.
  - intros c' Hc'. by apply elem_of_nil in Hc'.
Defined.

(** X2. A call that brings no new cipher identifier changes nothing at
    all: records whose identifiers are all in the table leave the whole
    store as it is, whatever their other fields (so repeating a call, with
    the same or with different values, is a no-op). *)
Theorem insert_ciphers_to_db_absorbs cs1 cs2 conn :
  (∀ c2, c2 ∈ cs2 → ∃ c1, c1 ∈ cs1 ∧ cipher_id c1 = cipher_id c2) →
  insert_ciphers_to_db cs2 (insert_ciphers_to_db cs1 conn) =
  insert_ciphers_to_db cs1 conn.
Proof.
  intros Hids. apply insert_ciphers_to_db_present. intros c2 Hc2.
  destruct (Hids c2 Hc2) as (c1 & Hc1 & <-).
  by apply insert_ciphers_to_db_keys.
Qed.

Lemma insert_ciphers_to_db_absorbs_witness :
  insert_ciphers_to_db
    [ {| sslversion := "TLSv1.3"; cipher_name := "other"; bits := "128";
         cipher_id := "C1"; status := "accepted" |} ]
    (insert_ciphers_to_db [tls12_preferred] sample_store)
  = insert_ciphers_to_db [tls12_preferred] sample_store.
Proof.
  apply insert_ciphers_to_db_absorbs. intros c2 ->%list_elem_of_singleton.
  exists tls12_preferred. split; [left|reflexivity].
Defined.

(** ** Writes to [domain_names] and [domain_ciphers] *)

Section rowids.

Lemma foldr_max_ge (seq : Z) (ids : list Z) (x : Z) :
  x ∈ ids → (x ≤ foldr Z.max seq ids)%Z.
Proof.
  induction ids as [|y ids IH]; [by intros ?%elem_of_nil|].
  intros [->|Hx]%elem_of_cons; simpl; [lia|]. specialize (IH Hx). lia.
Qed.

(** The rowid of a new row is not the rowid of any row of the table. *)
Lemma next_rowid_fresh seq ids : next_rowid seq ids ∉ ids.
Proof.
  intros Hin. apply (foldr_max_ge seq) in Hin. unfold next_rowid in Hin. lia.
Qed.


Lemma link_rows_seq domain_id cs conn :
  seq_domain_names (fold_left (insert_or_ignore_domain_cipher domain_id) cs conn)
    = seq_domain_names conn.
Proof. by destruct (link_rows_frame domain_id cs conn) as (_ & _ & _ & ->). Qed.

End rowids.


(** ** What a unit of work does to the store *)

Section unit_store.

Context (w : world).

(** A unit leaves the store as it was, or it has upserted the ciphers it
    found and linked the host to them. *)
Lemma process_domain_db host port s :
  db (process_domain w host port s).2 = db s ∨
  ∃ c cs conn',
    (process_domain w host port s).1 = Return None ∧
    skip_count (db s) host = 0%nat ∧
    map_domain_to_ciphers host (c :: cs) (insert_ciphers_to_db (c :: cs) (db s))
      = Return conn' ∧
    db (process_domain w host port s).2 = conn'.
Proof.
  unfold_unit. destruct (decide (0 < skip_count (db s) host)%nat); simpl; [by left|].
  case_scan w host port; try by left.
  destruct (map_domain_to_ciphers_returns host (c :: cs)
              (insert_ciphers_to_db (c :: cs) (db s))) as [conn' Hmap].
  rewrite Hmap. simpl. right. exists c, cs, conn'. repeat split; [lia|done].
Qed.

End unit_store.

Section keys.




Lemma keys_unique_insert_or_ignore_domain_name conn row :
  keys_unique conn → keys_unique (insert_or_ignore_domain_name conn row).
Proof.
  destruct row as [[tld name] answer]. intros [Hn Hi Hc Ha].
  unfold insert_or_ignore_domain_name. case_decide as Hin; [done|].
  split; cbn [domain_names ciphers domain_ciphers]; try done.
  - rewrite fmap_app. apply NoDup_app. split; [done|]. split; [|apply NoDup_singleton].
    by intros k Hk ->%list_elem_of_singleton.
  - rewrite fmap_app. apply NoDup_app. split; [done|]. split; [|apply NoDup_singleton].
    intros k Hk ->%list_elem_of_singleton. by apply next_rowid_fresh in Hk.
Qed.


End keys.



Section unit_paths.

Context (w : world).

(** The path of a unit that finds accepted ciphers. *)
Lemma process_domain_success host port s xml_data c cs :
  skip_count (db s) host = 0%nat →
  which_sslscan w = true →
  sslscan w host port = Exit0 xml_data →
  extract_accepted_ciphers w xml_data = Return (c :: cs) →
  ∃ conn',
    map_domain_to_ciphers host (c :: cs) (insert_ciphers_to_db (c :: cs) (db s))
      = Return conn' ∧
    process_domain w host port s =
      (Return None,
       {| db := conn';
          out := out s ++ [Print_processing host port; Run_sslscan host port] |}).
Proof.
  intros Hzero Hwhich Hscan Hparse.
  destruct (map_domain_to_ciphers_returns host (c :: cs)
              (insert_ciphers_to_db (c :: cs) (db s))) as [conn' Hmap].
  exists conn'. split; [done|]. unfold_unit.
  rewrite Hzero, decide_False by lia. rewrite Hwhich. simpl.
  rewrite Hscan. simpl. rewrite Hparse. simpl. rewrite Hmap. simpl.
  by rewrite <- app_assoc.
Qed.

(** What [map_domain_to_ciphers] returns, read off its result. *)
Lemma map_domain_to_ciphers_grows host cs conn conn' :
  map_domain_to_ciphers host cs conn = Return conn' →
  tlds conn' = tlds conn ∧ ciphers conn' = ciphers conn ∧
  (∃ rows, domain_names conn' = domain_names conn ++ rows ∧
           (host ∈ name_value <$> domain_names conn → rows = []) ∧
           (∀ dn, dn ∈ rows → name_value dn = host ∧ dn_tld_id dn = None)) ∧
  ∃ id added,
    select_domain_id conn' host = Some id ∧
    domain_ciphers conn' = domain_ciphers conn ++ added ∧
    (λ dc, (dc_domain_id dc, dc_cipher_id dc)) <$> added
      = (λ c, (Some id, Some (cipher_id c))) <$> cs.
Proof.
  intros Hmap. destruct (select_domain_id conn host) as [id|] eqn:Hsel.
  - rewrite (map_domain_to_ciphers_known _ _ _ _ Hsel) in Hmap. injection Hmap as <-.
    destruct (link_rows_frame id cs conn) as (Ht & Hdn & Hc & _).
    destruct (link_rows_appends id cs conn) as (added & Hdc & Hadd).
    split; [done|]. split; [done|]. split.
    + exists []. rewrite app_nil_r. split; [done|]. split; [done|].
      by intros dn ?%elem_of_nil.
    + exists id, added. split; [|done]. unfold select_domain_id in *. by rewrite Hdn.
  - destruct (map_domain_to_ciphers_unknown host cs conn Hsel)
      as (conn1 & id & _ & Hdn1 & Ht1 & Hc1 & Hdc1 & E).
    rewrite E in Hmap. injection Hmap as <-.
    destruct (link_rows_frame id cs conn1) as (Ht & Hdn & Hc & _).
    destruct (link_rows_appends id cs conn1) as (added & Hdc & Hadd).
    apply select_domain_id_None in Hsel.
    split; [congruence|]. split; [congruence|]. split.
    + eexists. split; [by rewrite Hdn, Hdn1|]. split; [done|].
      by intros dn ->%list_elem_of_singleton.
    + exists id, added. split; [|by rewrite Hdc, Hdc1].
      unfold select_domain_id. rewrite Hdn, Hdn1, filter_app.
      rewrite (proj2 (filter_nil_iff _ (domain_names conn))).
      * by rewrite filter_cons, decide_True.
      * intros dn Hdn' Hname. apply Hsel, list_elem_of_fmap. eauto.
Qed.

Lemma added_row_shape (added : list domain_cipher_row) (cs : list cipher) id dc :
  (λ dc, (dc_domain_id dc, dc_cipher_id dc)) <$> added
    = (λ c, (Some id, Some (cipher_id c))) <$> cs →
  dc ∈ added →
  dc_domain_id dc = Some id ∧ ∃ c, c ∈ cs ∧ dc_cipher_id dc = Some (cipher_id c).
Proof.
  intros Heq Hdc.
  assert ((dc_domain_id dc, dc_cipher_id dc) ∈
            (λ c, (Some id, Some (cipher_id c))) <$> cs) as Hin.
  { rewrite <- Heq. apply list_elem_of_fmap. eauto. }
  apply list_elem_of_fmap in Hin as (c & [= -> ->] & Hc). eauto.
Qed.

(** In a store with unique names, the lookup of a row's name gives the
    row's id. *)
Lemma select_domain_id_unique conn dn :
  NoDup (name_value <$> domain_names conn) →
  dn ∈ domain_names conn →
  select_domain_id conn (name_value dn) = Some (dn_id dn).
Proof.
  intros Hu Hdn.
  destruct (select_domain_id conn (name_value dn)) as [id|] eqn:Hsel.
  - apply select_domain_id_Some in Hsel as (dn' & Hdn' & Hname & <-).
    apply list_elem_of_lookup in Hdn as [i Hi], Hdn' as [j Hj].
    assert (i = j) as ->; [|congruence].
    eapply NoDup_lookup; [exact Hu| |].
    + by rewrite list_lookup_fmap, Hi.
    + rewrite list_lookup_fmap, Hj. simpl. by rewrite Hname.
  - apply select_domain_id_None in Hsel. exfalso. apply Hsel.
    apply list_elem_of_fmap. eauto.
Qed.

End unit_paths.

Section references.

Lemma references_resolve_grows conn conn' :
  domain_ciphers conn' = domain_ciphers conn →
  (∀ dn, dn ∈ domain_names conn → dn ∈ domain_names conn') →
  (∀ row, row ∈ ciphers conn → row ∈ ciphers conn') →
  references_resolve conn → references_resolve conn'.
Proof.
  intros Hdc Hdn Hc Href dc Hin. rewrite Hdc in Hin.
  destruct (Href dc Hin) as [(dn & ? & ?) (row & ? & ?)]. split; eauto.
Qed.

Lemma references_resolve_process_domain w host port s :
  references_resolve (db s) →
  references_resolve (db (process_domain w host port s).2).
Proof.
  intros Href. destruct (process_domain_db w host port s)
    as [->|(c & cs & conn' & _ & _ & Hmap & ->)]; [done|].
  destruct (map_domain_to_ciphers_grows _ _ _ _ Hmap)
    as (_ & Hc & (rows & Hdn & _) & id & added & Hsel & Hdc & Hadd).
  destruct (insert_ciphers_to_db_frame (c :: cs) (db s)) as (_ & Hdn1 & Hdc1 & _).
  destruct (insert_ciphers_to_db_appends (c :: cs) (db s)) as (new & Hc1 & _).
  intros dc Hin. rewrite Hdc in Hin. apply elem_of_app in Hin as [Hold|Hnew].
  - rewrite Hdc1 in Hold. destruct (Href dc Hold) as [(dn & ? & ?) (row & ? & ?)].
    split.
    + exists dn. split; [|done]. rewrite Hdn, Hdn1. apply elem_of_app. by left.
    + exists row. split; [|done]. rewrite Hc, Hc1. apply elem_of_app. by left.
  - destruct (added_row_shape _ _ _ _ Hadd Hnew) as [Hid (c' & Hc' & Hcid)]. split.
    + apply select_domain_id_Some in Hsel as (dn & ? & _ & <-). eauto.
    + pose proof (insert_ciphers_to_db_keys (c :: cs) (db s) c' Hc') as Hkey.
      apply list_elem_of_fmap in Hkey as (row & Hrow & ?).
      exists row. split; [by rewrite Hc|]. by rewrite Hcid, Hrow.
Qed.

Lemma store_fetched_domains_grows resolve tld domains conn :
  tlds (store_fetched_domains resolve tld domains conn) = tlds conn ∧
  ciphers (store_fetched_domains resolve tld domains conn) = ciphers conn ∧
  domain_ciphers (store_fetched_domains resolve tld domains conn) = domain_ciphers conn ∧
  ∃ rows, domain_names (store_fetched_domains resolve tld domains conn)
            = domain_names conn ++ rows.
Proof.
  unfold store_fetched_domains. destruct domains as [|d ds].
  { repeat split. exists []. by rewrite app_nil_r. }
  generalize ((λ domain, (tld, wildcard_name domain, resolve (wildcard_name domain)))
                <$> d :: ds).
  intros data. revert conn. induction data as [|[[t n] a] data IH]; intros conn;
    cbn [fold_left].
  { repeat split. exists []. by rewrite app_nil_r. }
  destruct (IH (insert_or_ignore_domain_name conn (t, n, a)))
    as (-> & -> & -> & rows & ->).
  unfold insert_or_ignore_domain_name. case_decide; [by eauto|].
  cbn [tlds ciphers domain_ciphers domain_names]. repeat split.
  eexists. by rewrite <- app_assoc.
Qed.

End references.

(** X5. The program orders its writes so that the foreign keys of
    [domain_ciphers] hold although the store does not enforce them: when
    every association row points to an existing domain row and an existing
    cipher row, that is still so after any sequence of units of work, of
    inserts of fetched names and of changes of the TLD table. *)
Theorem references_resolve_later conn conn' :
  later_store conn conn' → references_resolve conn → references_resolve conn'.
Proof.
  induction 1 as [|conn' w host port printed _ IH
                  |conn' resolve tld domains _ IH|conn' ts _ IH]; intros Href.
  - done.
  - by apply (references_resolve_process_domain w host port
                {| db := conn'; out := printed |}), IH.
  - destruct (store_fetched_domains_grows resolve tld domains conn')
      as (_ & Hc & Hdc & rows & Hdn).
    eapply (references_resolve_grows conn'); [done| | |by apply IH].
    + intros dn Hin. rewrite Hdn. apply elem_of_app. by left.
    + intros row Hin. by rewrite Hc.
  - by apply (references_resolve_grows conn'), IH.
Qed.

Lemma references_resolve_later_witness :
  references_resolve sample_store ∧
  references_resolve
    (db (process_domain sample_world "a.example.com" 443 (start sample_store)).2).
Proof.
  assert (references_resolve sample_store) as Href.
  { intros dc Hdc. by apply elem_of_nil in Hdc. }
  split; [exact Href|].
  apply (references_resolve_later sample_store); [|exact Href].
  apply (later_unit sample_store sample_store sample_world "a.example.com" 443 []).
  apply later_now.
Defined.



(** X7. A report that does not parse fails its own host only: the wrapper
    prints the error and returns [(host, False)], having started the
    scanner once and written nothing. *)
Theorem malformed_report_fails_host w host port conn xml_data :
  skip_count conn host = 0%nat →
  which_sslscan w = true →
  sslscan w host port = Exit0 xml_data →
  fromstring w xml_data = None →
  process_domain_wrapper w host port (start conn) =
    (Return (host, false),
     {| db := conn;
        out := [Print_processing host port; Run_sslscan host port;
                Print_error_processing host ParseError] |}).
Proof.
  intros Hzero Hwhich Hscan Hparse. unfold_unit.
  rewrite Hzero, decide_False by lia. rewrite Hwhich. simpl. rewrite Hscan. simpl.
  unfold extract_accepted_ciphers. by rewrite Hparse.
Qed.

Lemma malformed_report_fails_host_witness :
  process_domain_wrapper sample_world "b.example.com" 443 (start store_with_bad_report)
    = (Return ("b.example.com", false),
       {| db := store_with_bad_report;
          out := [Print_processing "b.example.com" 443;
                  Run_sslscan "b.example.com" 443;
                  Print_error_processing "b.example.com" ParseError] |}).
Proof.
  apply (malformed_report_fails_host sample_world "b.example.com" 443
           store_with_bad_report "<document");
    vm_compute; reflexivity.
Defined.

(** X8. Once a scan has found at least one accepted cipher for a host
    whose row points to a TLD with [skip_existing] 1, the host is done: the
    unit returns having linked the host, and every later unit for it on the
    store it left, in any environment, takes the skip exit without
    starting the scanner. *)
Theorem scanned_host_is_skipped_next w host port conn xml_data c cs dn t :
  skip_count conn host = 0%nat →
  which_sslscan w = true →
  sslscan w host port = Exit0 xml_data →
  extract_accepted_ciphers w xml_data = Return (c :: cs) →
  NoDup (name_value <$> domain_names conn) →
  dn ∈ domain_names conn → name_value dn = host →
  t ∈ tlds conn → dn_tld_id dn = Some (tld_id t) → skip_existing t = Some 1 →
  ∃ s,
    process_domain w host port (start conn) = (Return None, s) ∧
    out s = [Print_processing host port; Run_sslscan host port] ∧
    ∀ w' port',
      process_domain w' host port' (start (db s)) =
        (Return (Some []), {| db := db s; out := [Print_skipping host] |}).
Proof.
  intros Hzero Hwhich Hscan Hparse Hu Hdn Hname Ht Htld Hskip.
  destruct (process_domain_success w host port (start conn) xml_data c cs)
    as (conn' & Hmap & Hrun); [done..|].
  eexists. split; [exact Hrun|]. split; [done|]. intros w' port'. simpl.
  rewrite (process_domain_skips w' host port' (start conn')); [done|].
  destruct (map_domain_to_ciphers_grows _ _ _ _ Hmap)
    as (Htlds & _ & (rows & Hdns & _) & id & added & Hsel & Hdc & Hadd).
  destruct (insert_ciphers_to_db_frame (c :: cs) conn) as (Ht1 & Hdn1 & _).
  simpl in Hmap, Hdns, Hdc, Htlds.
  assert (select_domain_id (insert_ciphers_to_db (c :: cs) conn) host = Some (dn_id dn))
    as Hsel1.
  { rewrite <- Hname. apply select_domain_id_unique; by rewrite Hdn1. }
  assert (id = dn_id dn) as ->.
  { pose proof (select_domain_id_app_l _ _ _ _ _ Hdns Hsel1). congruence. }
  destruct added as [|dc added]; [done|].
  destruct (added_row_shape _ _ _ dc Hadd) as [Hid _]; [left|].
  apply skip_count_pos. exists dc, dn, t. simpl.
  split; [rewrite Hdc; apply elem_of_app; right; left|].
  split; [rewrite Hdns, Hdn1; apply elem_of_app; by left|].
  split; [by rewrite Htlds, Ht1|]. done.
Qed.

Lemma scanned_host_is_skipped_next_witness :
  ∃ s,
    process_domain sample_world "a.example.com" 443 (start sample_store)
      = (Return None, s) ∧
    process_domain world_without_sslscan "a.example.com" 8443 (start (db s)) =
      (Return (Some []), {| db := db s; out := [Print_skipping "a.example.com"] |}).
Proof.
  destruct (scanned_host_is_skipped_next sample_world "a.example.com" 443 sample_store
              "sample" tls12_preferred
              [ {| sslversion := ""; cipher_name := ""; bits := ""; cipher_id := "";
                   status := "accepted" |} ]
              (host_row 1 "a.example.com") sample_tld)
    as (s & Hrun & _ & Hnext).
  - vm_compute; reflexivity.
  - reflexivity.
  - vm_compute; reflexivity.
  - vm_compute; reflexivity.
  - apply (bool_decide_unpack _). vm_compute. exact I.
  - apply (bool_decide_unpack _). vm_compute. exact I.
  - reflexivity.
  - apply (bool_decide_unpack _). vm_compute. exact I.
  - reflexivity.
  - reflexivity.
  - exists s. split; [exact Hrun|]. apply Hnext.
Defined.

Section flag.

(** A host none of whose rows points to a TLD with [skip_existing] 1 is
    not counted by the skip query. *)
Lemma skip_count_flag_cleared conn host :
  (∀ dn t, dn ∈ domain_names conn → name_value dn = host → t ∈ tlds conn →
           dn_tld_id dn = Some (tld_id t) → skip_existing t ≠ Some 1) →
  skip_count conn host = 0%nat.
Proof.
  intros Hclear.
  destruct (decide (0 < skip_count conn host)%nat) as [Hpos|]; [|lia].
  apply skip_count_pos in Hpos as (dc & dn & t & _ & Hdn & Ht & _ & Hname & Htld & Hskip).
  by destruct (Hclear dn t).
Qed.

End flag.

(** X9. While no row of the host points to a TLD whose [skip_existing] is
    1 (the flag is 0, NULL or any other value, or the row has no TLD), a
    host with accepted ciphers is scanned again by every unit, and a scan
    that repeats the report adds no cipher row and no domain row but one
    more association row for every accepted entry. *)
Theorem rescan_adds_association_rows w host port conn xml_data c cs :
  (∀ dn t, dn ∈ domain_names conn → name_value dn = host → t ∈ tlds conn →
           dn_tld_id dn = Some (tld_id t) → skip_existing t ≠ Some 1) →
  which_sslscan w = true →
  sslscan w host port = Exit0 xml_data →
  extract_accepted_ciphers w xml_data = Return (c :: cs) →
  ∃ s1 s2,
    process_domain w host port (start conn) = (Return None, s1) ∧
    process_domain w host port (start (db s1)) = (Return None, s2) ∧
    out s2 = [Print_processing host port; Run_sslscan host port] ∧
    ciphers (db s2) = ciphers (db s1) ∧
    domain_names (db s2) = domain_names (db s1) ∧
    length (domain_ciphers (db s2)) =
      (length (domain_ciphers (db s1)) + length (c :: cs))%nat.
Proof.
  intros Hclear Hwhich Hscan Hparse.
  pose proof (skip_count_flag_cleared conn host Hclear) as Hzero.
  destruct (process_domain_success w host port (start conn) xml_data c cs)
    as (conn1 & Hmap1 & Hrun1); [done..|]. simpl in Hmap1.
  destruct (map_domain_to_ciphers_grows _ _ _ _ Hmap1)
    as (Ht1 & Hc1 & (rows & Hdn1 & _ & Hrows) & id & added1 & Hsel1 & _).
  destruct (insert_ciphers_to_db_frame (c :: cs) conn) as (Ht0 & Hdn0 & _).
  assert (skip_count conn1 host = 0%nat) as Hzero1.
  { apply skip_count_flag_cleared. intros dn t Hdn Hname Ht Htld.
    rewrite Ht1, Ht0 in Ht. rewrite Hdn1, Hdn0 in Hdn.
    apply elem_of_app in Hdn as [Hdn|Hdn]; [by apply (Hclear dn t)|].
    destruct (Hrows dn Hdn) as [_ Hnone]. congruence. }
  destruct (process_domain_success w host port (start conn1) xml_data c cs)
    as (conn2 & Hmap2 & Hrun2); [done..|]. simpl in Hmap2.
  assert (insert_ciphers_to_db (c :: cs) conn1 = conn1) as Hsame.
  { apply insert_ciphers_to_db_present. intros c' Hc'. rewrite Hc1.
    by apply insert_ciphers_to_db_keys. }
  rewrite Hsame in Hmap2.
  destruct (map_domain_to_ciphers_grows _ _ _ _ Hmap2)
    as (_ & Hc2 & (rows2 & Hdn2 & Hknown & _) & id2 & added2 & _ & Hdc2 & Hadd2).
  exists {| db := conn1; out := [Print_processing host port; Run_sslscan host port] |},
         {| db := conn2; out := [Print_processing host port; Run_sslscan host port] |}.
  split; [exact Hrun1|]. split; [exact Hrun2|]. split; [done|]. split; [done|].
  simpl. split.
  - rewrite Hdn2, Hknown, app_nil_r; [done|].
    apply select_domain_id_Some in Hsel1 as (dn & Hdn & Hname & _).
    apply list_elem_of_fmap. eauto.
  - rewrite Hdc2, length_app. f_equal.
    by rewrite <- (length_fmap (λ dc, (dc_domain_id dc, dc_cipher_id dc))),
      Hadd2, length_fmap.
Qed.

Lemma rescan_adds_association_rows_witness :
  ∃ s1 s2,
    process_domain sample_world "a.example.com" 443
      (start (set_tlds [] sample_store)) = (Return None, s1) ∧
    process_domain sample_world "a.example.com" 443 (start (db s1))
      = (Return None, s2) ∧
    length (domain_ciphers (db s2)) = (length (domain_ciphers (db s1)) + 2)%nat.
Proof.
  destruct (rescan_adds_association_rows sample_world "a.example.com" 443
              (set_tlds [] sample_store) "sample" tls12_preferred
              [ {| sslversion := ""; cipher_name := ""; bits := ""; cipher_id := "";
                   status := "accepted" |} ])
    as (s1 & s2 & Hrun1 & Hrun2 & _ & _ & _ & Hlen).
  - intros dn t _ _ Ht. by apply elem_of_nil in Ht.
  - reflexivity.
  - vm_compute; reflexivity.
  - vm_compute; reflexivity.
  - exists s1, s2. split; [exact Hrun1|]. split; [exact Hrun2|exact Hlen].
Defined.

(** The tables after a unit, against the tables before it. *)
Lemma process_domain_only_appends_aux w host port s :
  tlds (db (process_domain w host port s).2) = tlds (db s) ∧
  domain_names (db s) `prefix_of` domain_names (db (process_domain w host port s).2) ∧
  ciphers (db s) `prefix_of` ciphers (db (process_domain w host port s).2) ∧
  domain_ciphers (db s) `prefix_of`
    domain_ciphers (db (process_domain w host port s).2) ∧
  (host ∈ name_value <$> domain_names (db s) →
   domain_names (db (process_domain w host port s).2) = domain_names (db s)).
Proof.
  destruct (process_domain_db w host port s)
    as [->|(c & cs & conn' & _ & _ & Hmap & ->)]; [done|].
  destruct (map_domain_to_ciphers_grows _ _ _ _ Hmap)
    as (Ht & Hc & (rows & Hdn & Hknown & _) & id & added & _ & Hdc & _).
  destruct (insert_ciphers_to_db_frame (c :: cs) (db s)) as (Ht1 & Hdn1 & Hdc1 & _).
  destruct (insert_ciphers_to_db_appends (c :: cs) (db s)) as (new & Hc1 & _).
  split; [congruence|]. split; [exists rows; congruence|].
  split; [exists new; congruence|]. split; [exists added; congruence|].
  intros Hin. rewrite Hdn, Hknown, app_nil_r; [done|]. by rewrite Hdn1.
Qed.

(** X10. A unit of work only appends: it leaves the TLD table as it is,
    and each of the three other tables it finds is the front of the table
    it leaves, so no row is deleted or changed; and when the host has a
    row, [domain_names] is left as it is. *)
Theorem process_domain_only_appends w host port s :
  tlds (db (process_domain w host port s).2) = tlds (db s) ∧
  domain_names (db s) `prefix_of` domain_names (db (process_domain w host port s).2) ∧
  ciphers (db s) `prefix_of` ciphers (db (process_domain w host port s).2) ∧
  domain_ciphers (db s) `prefix_of`
    domain_ciphers (db (process_domain w host port s).2) ∧
  (host ∈ name_value <$> domain_names (db s) →
   domain_names (db (process_domain w host port s).2) = domain_names (db s)).
Proof.
  destruct (process_domain_only_appends_aux w host port s)
    as (Ht & Hdn & Hc & Hdc & Hknown).
  split; [exact Ht|]. split; [exact Hdn|]. split; [exact Hc|].
  split; [exact Hdc|exact Hknown].
Qed.

(** ** The run as a whole *)

Section run.

Context (w : world).

(** The wrapper adds no write of its own. *)
Lemma process_domain_wrapper_db host port s :
  db (process_domain_wrapper w host port s).2 = db (process_domain w host port s).2.
Proof.
  unfold process_domain_wrapper, try_except_Exception, bind, ret, print.
  destruct (process_domain w host port s) as [[r|e] s1]; simpl; [done|].
  by destruct (is_Exception e).
Qed.



End run.


(** X11. A run reads the hosts and leaves them alone: whatever the
    environment and the order of completion, it ends with the [tlds] and
    [domain_names] tables exactly as it found them, and with [ciphers] and
    [domain_ciphers] extended at their end only. *)
Theorem run_leaves_domains_alone w as_completed conn :
  as_completed (name_value <$> domain_names conn) ≡ₚ name_value <$> domain_names conn →
  tlds (db (main w as_completed conn).2) = tlds conn ∧
  domain_names (db (main w as_completed conn).2) = domain_names conn ∧
  ciphers conn `prefix_of` ciphers (db (main w as_completed conn).2) ∧
  domain_ciphers conn `prefix_of` domain_ciphers (db (main w as_completed conn).2).
Proof.
  intros Hperm.
  destruct (decide (domain_names conn = [])) as [Hnil|Hne].
  { by rewrite main_no_domains. }
  set (Inv := λ s : state,
         tlds (db s) = tlds conn ∧ domain_names (db s) = domain_names conn ∧
         ciphers conn `prefix_of` ciphers (db s) ∧
         domain_ciphers conn `prefix_of` domain_ciphers (db s)).
  destruct (run_pool_spec w Inv (λ _ _, True)
              (as_completed (name_value <$> domain_names conn))
              {| db := conn;
                 out := [Print_processing_domains (length (name_value <$> domain_names conn));
                         Print_workers (32 `min` length (name_value <$> domain_names conn))] |})
    as (futures & s' & Hrun & Hinv & _).
  - intros host s0 Hhost (Ht & Hdn & Hc & Hdc). split; [|done].
    unfold Inv. rewrite process_domain_wrapper_db.
    destruct (process_domain_only_appends_aux w host 443 s0)
      as (Ht' & _ & Hc' & Hdc' & Hknown).
    rewrite Ht', Hknown; [|by rewrite Hdn, <- Hperm].
    split; [done|]. split; [done|]. split; by etrans.
  - by unfold Inv.
  - by rewrite (main_spec _ _ _ _ _ Hne Hrun).
Qed.

Lemma run_leaves_domains_alone_witness :
  reverse (name_value <$> domain_names store_with_bad_report)
    ≡ₚ name_value <$> domain_names store_with_bad_report ∧
  domain_names (db (main sample_world reverse store_with_bad_report).2)
    = domain_names store_with_bad_report.
Proof.
  assert (reverse (name_value <$> domain_names store_with_bad_report)
            ≡ₚ name_value <$> domain_names store_with_bad_report) as Hperm.
  { apply (bool_decide_unpack _). vm_compute. exact I. }
  split; [exact Hperm|].
  exact (proj1 (proj2
    (run_leaves_domains_alone sample_world reverse store_with_bad_report Hperm))).
Defined.


(** X13. The result loop stops at the first future that holds a raise:
    it has printed one line for each future before it, numbered from one
    more than the count it started with, and re-raises what that future
    holds, whatever the futures after it hold; with no such future it
    prints a line for every future and returns. It writes nothing. *)
Theorem tally_stops_at_first_raise (rs : list (string * bool)) e rest completed total s :
  tally ((Return <$> rs) ++ Raise e :: rest) completed total s =
    (Raise e,
     {| db := db s;
        out := out s ++
               imap (λ i r, Print_processed r.1 r.2 (completed + i + 1) total) rs |}) ∧
  tally (Return <$> rs) completed total s =
    (Return tt,
     {| db := db s;
        out := out s ++
               imap (λ i r, Print_processed r.1 r.2 (completed + i + 1) total) rs |}).
Proof.
  assert (∀ tail k,
            tally_lines ((Return <$> rs) ++ tail) k total =
              imap (λ i r, Print_processed r.1 r.2 (k + i + 1) total) rs ++
              tally_lines tail (k + length rs) total) as Hlines.
  { intros tail. induction rs as [|[h ok] rs IH]; intros k; simpl.
    - by rewrite Nat.add_0_r.
    - rewrite IH. f_equal; [by rewrite Nat.add_0_r, Nat.add_1_r|]. f_equal.
      + apply imap_ext. intros i r _. simpl. f_equal; lia.
      + f_equal; lia. }
  assert (∀ tail, first_raise ((Return <$> rs) ++ tail) = first_raise tail) as Hfirst.
  { clear Hlines. intros tail. induction rs as [|r rs IH]; simpl; [done|]. apply IH. }
  split.
  - rewrite tally_spec, Hfirst, Hlines. simpl. by rewrite app_nil_r.
  - rewrite <- (app_nil_r (Return <$> rs)), tally_spec, Hfirst, Hlines. simpl.
    by rewrite app_nil_r.
Qed.

(** ** The producer: names read from the certificate log *)

Section strings.

Lemma split_nonempty sep s : split sep s ≠ [].
Proof.
  destruct s as [|ch rest]; simpl; [done|].
  case_decide; [done|]. by destruct (split sep rest).
Qed.

(** No piece of a split contains the separator. *)
Lemma split_no_separator sep s piece :
  piece ∈ split sep s → sep ∉ String.list_ascii_of_string piece.
Proof.
  revert piece. induction s as [|ch rest IH]; intros piece; simpl.
  - intros ->%list_elem_of_singleton. by intros ?%elem_of_nil.
  - case_decide as Hsep.
    + intros [->|Hin]%elem_of_cons; [by intros ?%elem_of_nil|by apply IH].
    + destruct (split sep rest) as [|p ps] eqn:Hsplit.
      { intros ->%list_elem_of_singleton. simpl.
        intros [->|?%elem_of_nil]%elem_of_cons; done. }
      intros [->|Hin]%elem_of_cons.
      * simpl. intros [->|Hp]%elem_of_cons; [done|].
        by apply (IH p); [left|].
      * apply IH. by right.
Qed.

Lemma lstrip_chars s ch : ch ∈ String.list_ascii_of_string (lstrip s) → ch ∈ String.list_ascii_of_string s.
Proof.
  induction s as [|c rest IH]; simpl; [done|].
  destruct (isspace c); [|done]. intros Hin. right. by apply IH.
Qed.

Lemma rstrip_chars s ch : ch ∈ String.list_ascii_of_string (rstrip s) → ch ∈ String.list_ascii_of_string s.
Proof.
  induction s as [|c rest IH]; simpl; [done|].
  destruct (rstrip rest) as [|c' kept].
  - destruct (isspace c); simpl; [by intros ?%elem_of_nil|].
    intros [->|?%elem_of_nil]%elem_of_cons; [left|done].
  - simpl. intros [->|Hin]%elem_of_cons; [left|]. right. by apply IH.
Qed.

(** What [lstrip] leaves is empty or begins with a character that is not
    white space. *)
Lemma lstrip_head s :
  lstrip s = EmptyString ∨
  ∃ ch rest, lstrip s = String ch rest ∧ isspace ch = false.
Proof.
  induction s as [|c rest IH]; simpl; [by left|].
  destruct (isspace c) eqn:Hc; [done|]. right. eauto.
Qed.

Lemma rstrip_idempotent s : rstrip (rstrip s) = rstrip s.
Proof.
  induction s as [|c rest IH]; simpl; [done|].
  destruct (rstrip rest) as [|c' kept] eqn:Hr.
  - destruct (isspace c) eqn:Hc; simpl; [done|]. by rewrite Hc.
  - simpl in *. by rewrite IH.
Qed.

Lemma strip_idempotent s : strip (strip s) = strip s.
Proof.
  unfold strip.
  assert (lstrip (rstrip (lstrip s)) = rstrip (lstrip s)) as ->;
    [|apply rstrip_idempotent].
  destruct (lstrip_head s) as [->|(ch & rest & -> & Hch)]; [done|].
  simpl. destruct (rstrip rest); rewrite ?Hch; simpl; by rewrite Hch.
Qed.

End strings.

Section fetch.

Lemma add_domain_spec domains line d :
  d ∈ add_domain domains line ↔ d ∈ domains ∨ (d = strip line ∧ d ≠ "").
Proof.
  unfold add_domain. case_decide as Hempty.
  - split; [by left|]. intros [?|[-> ?]]; done.
  - rewrite elem_of_union, elem_of_singleton. split.
    + intros [->|?]; [right|left]; done.
    + intros [?|[-> _]]; [right|left]; done.
Qed.

Lemma add_domains_spec lines domains d :
  d ∈ fold_left add_domain lines domains ↔
  d ∈ domains ∨ (d ≠ "" ∧ ∃ line, line ∈ lines ∧ d = strip line).
Proof.
  revert domains. induction lines as [|line lines IH]; intros domains; simpl.
  - split; [by left|]. intros [?|(_ & ? & ?%elem_of_nil & _)]; done.
  - rewrite IH, add_domain_spec. split.
    + intros [[?|[-> ?]]|(? & l & ? & ?)]; [by left| |].
      * right. split; [done|]. exists line. split; [left|done].
      * right. split; [done|]. exists l. split; [by right|done].
    + intros [?|(? & l & [->|?]%elem_of_cons & ?)]; [by left; left|by left; right|].
      right. eauto.
Qed.

Lemma fetch_certificates_spec data domains d :
  d ∈ fold_left
        (λ domains cert,
           match cert !! "name_value" with
           | Some nv => fold_left add_domain (split newline nv) domains
           | None => domains
           end) data domains ↔
  d ∈ domains ∨
  (d ≠ "" ∧ ∃ (cert : gmap string string) nv line,
     cert ∈ data ∧ cert !! "name_value" = Some nv ∧
     line ∈ split newline nv ∧ d = strip line).
Proof.
  revert domains. induction data as [|cert data IH]; intros domains; simpl.
  - split; [by left|]. intros [?|(_ & ? & ? & ? & ?%elem_of_nil & _)]; done.
  - rewrite IH. destruct (cert !! "name_value") as [nv|] eqn:Hnv.
    + rewrite add_domains_spec. split.
      * intros [[?|(? & line & ? & ?)]|(? & c & nv' & line & ? & ? & ? & ?)];
          [by left| |].
        -- right. split; [done|]. exists cert, nv, line. split; [left|done].
        -- right. split; [done|]. exists c, nv', line. split; [by right|done].
      * intros [?|(? & c & nv' & line & [->|?]%elem_of_cons & Hc & ? & ?)];
          [by left; left| |].
        -- left. right. split; [done|]. exists line. split; [|done]. congruence.
        -- right. split; [done|]. exists c, nv', line. done.
    + split.
      * intros [?|(? & c & nv' & line & ? & ? & ? & ?)]; [by left|].
        right. split; [done|]. exists c, nv', line. split; [by right|done].
      * intros [?|(? & c & nv' & line & [->|?]%elem_of_cons & Hc & ? & ?)];
          [by left|congruence|].
        right. split; [done|]. exists c, nv', line. done.
Qed.

End fetch.

(** X14. [fetch_domains_from_crtsh] gives no name when the request fails
    or its body is not JSON. Otherwise it gives exactly the non-empty
    stripped lines of the [name_value] fields of the records (a record
    without the field gives none); every name it gives is non-empty, has no
    white space at either end and contains no line break. *)
Theorem fetched_names_are_clean :
  fetch_domains_from_crtsh Request_failed = ∅ ∧
  fetch_domains_from_crtsh Json_undecodable = ∅ ∧
  ∀ data d,
    (d ∈ fetch_domains_from_crtsh (Certificates data) ↔
     d ≠ "" ∧ ∃ (cert : gmap string string) nv line,
       cert ∈ data ∧ cert !! "name_value" = Some nv ∧
       line ∈ split newline nv ∧ d = strip line) ∧
    (d ∈ fetch_domains_from_crtsh (Certificates data) →
     strip d = d ∧ newline ∉ String.list_ascii_of_string d).
Proof.
  split; [done|]. split; [done|]. intros data d.
  assert (d ∈ fetch_domains_from_crtsh (Certificates data) ↔
          d ≠ "" ∧ ∃ (cert : gmap string string) nv line,
            cert ∈ data ∧ cert !! "name_value" = Some nv ∧
            line ∈ split newline nv ∧ d = strip line) as Hspec.
  { unfold fetch_domains_from_crtsh. rewrite fetch_certificates_spec.
    split; [by intros [?%elem_of_empty|?]|by right]. }
  split; [exact Hspec|].
  intros (_ & cert & nv & line & _ & _ & Hline & ->)%Hspec. split.
  - apply strip_idempotent.
  - intros Hin. apply (split_no_separator newline nv line Hline).
    by apply lstrip_chars, rstrip_chars.
Qed.

(** ** The producer: writes to [tlds] and [domain_names] *)

Section producer_writes.



(** Any property of the store that an ignoring insert of a name keeps is
    kept by both loops of inserts and by the body of the TLD loop. *)
Lemma insert_known_subdomains_keeps (Inv : store → Prop) pw tld tld_name known conn :
  (∀ conn row, Inv conn → Inv (insert_or_ignore_domain_name conn row)) →
  Inv conn → Inv (insert_known_subdomains pw tld tld_name known conn).
Proof.
  intros Hstep. unfold insert_known_subdomains.
  generalize (split comma known). intros pieces. revert conn.
  induction pieces as [|piece pieces IH]; intros conn Hinv; cbn [fold_left]; [done|].
  apply IH. case_decide; [done|]. by apply Hstep.
Qed.

Lemma store_fetched_domains_keeps (Inv : store → Prop) resolve tld domains conn :
  (∀ conn row, Inv conn → Inv (insert_or_ignore_domain_name conn row)) →
  Inv conn → Inv (store_fetched_domains resolve tld domains conn).
Proof.
  intros Hstep. unfold store_fetched_domains. destruct domains as [|d ds]; [done|].
  generalize ((λ domain, (tld, wildcard_name domain, resolve (wildcard_name domain)))
                <$> d :: ds).
  intros data. revert conn. induction data as [|row data IH]; intros conn Hinv;
    cbn [fold_left]; [done|].
  by apply IH, Hstep.
Qed.

Lemma process_tld_keeps (Inv : store → Prop) pw conn t conn' :
  (∀ conn row, Inv conn → Inv (insert_or_ignore_domain_name conn row)) →
  process_tld pw conn t = inr conn' → Inv conn → Inv conn'.
Proof.
  intros Hstep. destruct t as [[tld name] known]. unfold process_tld.
  destruct (head _) as [row|]; [|done].
  destruct (truthy _ && _); [by intros [= <-]|].
  destruct known as [known|]; [|done]. intros [= <-] Hinv.
  by apply store_fetched_domains_keeps, insert_known_subdomains_keeps.
Qed.

Lemma process_tlds_loop_keeps (Inv : store → Prop) pw ts conn :
  (∀ conn row, Inv conn → Inv (insert_or_ignore_domain_name conn row)) →
  Inv conn → Inv (process_tlds_loop pw ts conn).1.
Proof.
  intros Hstep. revert conn. induction ts as [|t ts IH]; intros conn Hinv; simpl;
    [done|].
  destruct (process_tld pw conn t) as [e|conn'] eqn:Ht; [done|].
  apply IH. by eapply process_tld_keeps.
Qed.

Lemma process_tlds_loop_app pw ts1 ts2 conn :
  process_tlds_loop pw (ts1 ++ ts2) conn =
    match process_tlds_loop pw ts1 conn with
    | (conn1, None) => process_tlds_loop pw ts2 conn1
    | stopped => stopped
    end.
Proof.
  revert conn. induction ts1 as [|t ts1 IH]; intros conn; simpl; [done|].
  destruct (process_tld pw conn t) as [e|conn']; [done|]. apply IH.
Qed.

(** The setup touches the TLD table only, and only at its end. *)
Lemma setup_database_frame conn seq :
  tlds conn `prefix_of` tlds (setup_database conn seq).1 ∧
  domain_names (setup_database conn seq).1 = domain_names conn ∧
  ciphers (setup_database conn seq).1 = ciphers conn ∧
  domain_ciphers (setup_database conn seq).1 = domain_ciphers conn.
Proof.
  unfold setup_database. cbn [fold_left insert_or_ignore_tld].
  case_decide; simpl; [done|]. repeat split. by eexists.
Qed.

End producer_writes.



Section producer_loop.

Lemma head_filter_unique {A} (f : A → Z) (l : list A) (x : A) :
  NoDup (f <$> l) → x ∈ l →
  head (filter (λ y, f y = f x) l) = Some x.
Proof.
  intros Hu Hx.
  destruct (head (filter (λ y, f y = f x) l)) as [y|] eqn:Hhd.
  - apply head_Some_elem_of, list_elem_of_filter in Hhd as [Hf Hy].
    apply list_elem_of_lookup in Hx as [i Hi], Hy as [j Hj].
    assert (j = i) as ->; [|congruence].
    eapply NoDup_lookup; [exact Hu| |];
      rewrite list_lookup_fmap; [rewrite Hj|rewrite Hi]; simpl; [by rewrite Hf|done].
  - apply head_None in Hhd.
    pose proof (proj1 (filter_nil_iff (λ y, f y = f x) l) Hhd) as Hall.
    by destruct (Hall x Hx).
Qed.

Lemma startswith_app p s rest :
  startswith p s = true → startswith p (s +:+ rest) = true.
Proof.
  unfold startswith. revert s. induction p as [|a p IH]; intros s.
  - intros _. by destruct (s +:+ rest).
  - destruct s as [|b s]; simpl; [by destruct rest|].
    destruct (Ascii.ascii_dec a b); [apply IH|done].
Qed.

End producer_loop.

(** X17. The two scripts read [skip_existing] differently. For a TLD row
    whose flag is an integer other than 0 and 1, the producer (which tests
    its truth value) skips the TLD as soon as it has one domain row, while
    the scanner (whose query asks for [skip_existing = 1]) skips none of its
    hosts and scans them on every run. *)
Theorem skip_existing_read_differently pw conn row dn n known :
  NoDup (tld_id <$> tlds conn) →
  NoDup (name_value <$> domain_names conn) →
  row ∈ tlds conn → dn ∈ domain_names conn →
  dn_tld_id dn = Some (tld_id row) →
  skip_existing row = Some n → n ≠ 0 → n ≠ 1 →
  process_tld pw conn (tld_id row, tld_name row, known) = inr conn ∧
  skip_count conn (name_value dn) = 0%nat.
Proof.
  intros Hids Hnames Hrow Hdn Htld Hflag Hn0 Hn1. split.
  - unfold process_tld. rewrite (head_filter_unique tld_id) by done.
    rewrite Hflag. simpl.
    assert (Z.eqb n 0 = false) as -> by by apply Z.eqb_neq.
    simpl. rewrite bool_decide_eq_true_2; [done|].
    apply length_filter_pos. eauto.
  - apply skip_count_flag_cleared. intros dn' t Hdn' Hname Ht Htld' Hskip.
    assert (dn' = dn) as ->.
    { apply list_elem_of_lookup in Hdn as [i Hi], Hdn' as [j Hj].
      assert (j = i) as ->; [|congruence].
      eapply NoDup_lookup; [exact Hnames| |];
        rewrite list_lookup_fmap; [rewrite Hj|rewrite Hi]; simpl; [by rewrite Hname|done]. }
    assert (t = row) as ->.
    { apply list_elem_of_lookup in Hrow as [i Hi], Ht as [j Hj].
      assert (j = i) as ->; [|congruence].
      eapply NoDup_lookup; [exact Hids| |].
      - rewrite list_lookup_fmap, Hj. reflexivity.
      - rewrite list_lookup_fmap, Hi. simpl. congruence. }
    congruence.
Qed.

Lemma skip_existing_read_differently_witness :
  process_tld {| crtsh := λ _, ["x.example.com"]; resolved := λ _, "[]" |}
    (set_tlds [ {| tld_id := 1; tld_name := "example.com";
                   known_subdomains := None; skip_existing := Some 2 |} ]
       scanned_store)
    (1, "example.com", None)
  = inr (set_tlds [ {| tld_id := 1; tld_name := "example.com";
                       known_subdomains := None; skip_existing := Some 2 |} ]
           scanned_store) ∧
  skip_count
    (set_tlds [ {| tld_id := 1; tld_name := "example.com";
                   known_subdomains := None; skip_existing := Some 2 |} ]
       scanned_store) "a.example.com" = 0%nat.
Proof.
  apply (skip_existing_read_differently
           {| crtsh := λ _, ["x.example.com"]; resolved := λ _, "[]" |}
           (set_tlds [ {| tld_id := 1; tld_name := "example.com";
                          known_subdomains := None; skip_existing := Some 2 |} ]
              scanned_store)
           {| tld_id := 1; tld_name := "example.com";
              known_subdomains := None; skip_existing := Some 2 |}
           (host_row 1 "a.example.com") 2 None).
  - apply (bool_decide_unpack _). vm_compute. exact I.
  - apply (bool_decide_unpack _). vm_compute. exact I.
  - apply (bool_decide_unpack _). vm_compute. exact I.
  - apply (bool_decide_unpack _). vm_compute. exact I.
  - reflexivity.
  - reflexivity.
  - lia.
  - lia.
Defined.

(** X18. A TLD row whose [known_subdomains] is NULL ends the producer's
    loop, unless the TLD is skipped: the exception is raised before
    anything is written for that TLD, the store stays as the TLDs before it
    left it, and the TLDs after it are not processed. *)
Theorem null_known_subdomains_stops_loop pw ts1 tld name ts2 conn conn1 row :
  process_tlds_loop pw ts1 conn = (conn1, None) →
  head (filter (λ r, tld_id r = tld) (tlds conn1)) = Some row →
  truthy (skip_existing row) = false ∨
    filter (λ dn, dn_tld_id dn = Some tld) (domain_names conn1) = [] →
  process_tlds_loop pw (ts1 ++ (tld, name, None) :: ts2) conn
    = (conn1, Some AttributeError).
Proof.
  intros Hloop Hrow Hnoskip. rewrite process_tlds_loop_app, Hloop.
  cbn [process_tlds_loop]. unfold process_tld. rewrite Hrow.
  destruct Hnoskip as [->| ->]; [done|]. by rewrite andb_false_r.
Qed.

Lemma null_known_subdomains_stops_loop_witness :
  process_tlds_loop {| crtsh := λ _, ["x.example.com"]; resolved := λ _, "[]" |}
    ([] ++ (1, "example.com", None) :: [(2, "example.org", Some "www")])
    (store_with [])
  = (store_with [], Some AttributeError).
Proof.
  apply (null_known_subdomains_stops_loop _ [] 1 "example.com" _ _ _ sample_tld).
  - reflexivity.
  - vm_compute; reflexivity.
  - right. vm_compute; reflexivity.
Defined.

(** X19. A known subdomain is stored as it is written: every non-empty
    stripped piece of [known_subdomains], followed by a dot and the TLD's
    name, is the name of a row after the loop over the pieces, and unlike a
    fetched name it is not rewritten when it begins with [*]. *)
Theorem known_subdomain_stored_as_written pw tld tld_name known conn piece :
  piece ∈ split comma known →
  strip piece ≠ "" →
  strip piece +:+ "." +:+ tld_name ∈
    name_value <$> domain_names (insert_known_subdomains pw tld tld_name known conn) ∧
  (startswith "*" (strip piece) = true →
   startswith "*" (strip piece +:+ "." +:+ tld_name) = true).
Proof.
  intros Hpiece Hne. split; [|apply startswith_app].
  unfold insert_known_subdomains. revert Hpiece.
  generalize (split comma known). intros pieces. revert conn.
  induction pieces as [|p pieces IH]; intros conn Hin; [by apply elem_of_nil in Hin|].
  cbn [fold_left]. apply elem_of_cons in Hin as [<-|Hin]; [|by apply IH].
  rewrite decide_False by done.
  match goal with
  | |- _ ∈ name_value <$> domain_names (fold_left ?f pieces ?c) =>
      assert (∀ ps c0, strip piece +:+ "." +:+ tld_name ∈ name_value <$> domain_names c0 →
                strip piece +:+ "." +:+ tld_name ∈
                  name_value <$> domain_names (fold_left f ps c0)) as Hkeep
  end.
  { clear. intros ps. induction ps as [|q ps IH]; intros c0 Hin; cbn [fold_left];
      [done|].
    apply IH. case_decide; [done|].
    destruct (insert_or_ignore_domain_name_appends c0 tld
                (strip q +:+ "." +:+ tld_name)
                (resolved pw (strip q +:+ "." +:+ tld_name))) as (added & -> & _).
    rewrite fmap_app. apply elem_of_app. by left. }
  apply Hkeep.
  by destruct (insert_or_ignore_domain_name_appends conn tld
                 (strip piece +:+ "." +:+ tld_name)
                 (resolved pw (strip piece +:+ "." +:+ tld_name))) as (_ & _ & _ & ?).
Qed.

Lemma known_subdomain_stored_as_written_witness :
  "*.example.com" ∈
    name_value <$> domain_names
      (insert_known_subdomains {| crtsh := λ _, []; resolved := λ _, "[]" |}
         1 "example.com" "www, * ,," sample_store).
Proof.
  apply (proj1 (known_subdomain_stored_as_written
                  {| crtsh := λ _, []; resolved := λ _, "[]" |}
                  1 "example.com" "www, * ,," sample_store " * "
                  ltac:(apply (bool_decide_unpack _); vm_compute; exact I)
                  ltac:(vm_compute; discriminate))).
Defined.

Section producer_run.

Lemma insert_or_ignore_domain_name_frame conn row :
  tlds (insert_or_ignore_domain_name conn row) = tlds conn ∧
  ciphers (insert_or_ignore_domain_name conn row) = ciphers conn ∧
  domain_ciphers (insert_or_ignore_domain_name conn row) = domain_ciphers conn ∧
  domain_names conn `prefix_of` domain_names (insert_or_ignore_domain_name conn row).
Proof.
  destruct row as [[tld name] answer]. unfold insert_or_ignore_domain_name.
  case_decide; [done|]. repeat split. by eexists.
Qed.

Lemma references_resolve_insert_or_ignore_domain_name conn row :
  references_resolve conn →
  references_resolve (insert_or_ignore_domain_name conn row).
Proof.
  destruct (insert_or_ignore_domain_name_frame conn row) as (_ & Hc & Hdc & [rows Hdn]).
  apply references_resolve_grows; [done| |by rewrite Hc].
  intros dn Hin. rewrite Hdn. apply elem_of_app. by left.
Qed.

Lemma extends_insert_or_ignore_domain_name conn0 conn row :
  extends conn0 conn → extends conn0 (insert_or_ignore_domain_name conn row).
Proof.
  intros (Ht & Hdn & Hc & Hdc).
  destruct (insert_or_ignore_domain_name_frame conn row) as (Ht' & Hc' & Hdc' & Hdn').
  split; [by rewrite Ht'|]. split; [by etrans|]. split; congruence.
Qed.

End producer_run.

(** X20. A whole run of the producer only appends rows to [tlds] and
    [domain_names] and leaves [ciphers] and [domain_ciphers] alone, also
    when it ends early; it keeps the schema's uniqueness and the foreign
    keys of the associations; and it never adopts a host that has no
    parent TLD, which therefore stays outside the scanner's skip policy. *)
Theorem process_tlds_keeps pw conn seq :
  ciphers (process_tlds pw conn seq).1 = ciphers conn ∧
  domain_ciphers (process_tlds pw conn seq).1 = domain_ciphers conn ∧
  tlds conn `prefix_of` tlds (process_tlds pw conn seq).1 ∧
  domain_names conn `prefix_of` domain_names (process_tlds pw conn seq).1 ∧
  (keys_unique conn → keys_unique (process_tlds pw conn seq).1) ∧
  (references_resolve conn → references_resolve (process_tlds pw conn seq).1) ∧
  (∀ host, without_tld conn host →
     without_tld (process_tlds pw conn seq).1 host ∧
     skip_count (process_tlds pw conn seq).1 host = 0%nat).
Proof.
  unfold process_tlds.
  destruct (setup_database_frame conn seq) as (Ht & Hdn & Hc & Hdc).
  destruct (setup_database conn seq) as [conn1 seq1]. simpl in Ht, Hdn, Hc, Hdc.
  set (ts := (λ r, (tld_id r, tld_name r, known_subdomains r)) <$> tlds conn1).
  assert (extends conn (process_tlds_loop pw ts conn1).1) as (Ht' & Hdn' & Hc' & Hdc').
  { apply (process_tlds_loop_keeps (extends conn)).
    - intros c row. apply extends_insert_or_ignore_domain_name.
    - split; [done|]. split; [by rewrite Hdn|]. done. }
  split; [done|]. split; [done|]. split; [done|]. split; [done|]. split; [|split].
  - intros [Hn Hi Hcu Ha].
    apply (process_tlds_loop_keeps keys_unique).
    + intros c row. apply keys_unique_insert_or_ignore_domain_name.
    + split; by rewrite ?Hdn, ?Hc, ?Hdc.
  - intros Href. apply (process_tlds_loop_keeps references_resolve).
    + intros c row. apply references_resolve_insert_or_ignore_domain_name.
    + apply (references_resolve_grows conn); [done| |by rewrite Hc|done].
      intros dn Hin. by rewrite Hdn.
  - intros host Hinv.
    assert (without_tld (process_tlds_loop pw ts conn1).1 host) as Hinv'.
    { apply (process_tlds_loop_keeps (λ c, without_tld c host)).
      - intros c row. apply without_tld_insert_or_ignore_domain_name.
      - by apply (without_tld_same_names conn). }
    split; [done|]. by apply without_tld_skip_count.
Qed.

Section pool.

Lemma process_domain_wrapper_workers w host port s k :
  Print_workers k ∈ out (process_domain_wrapper w host port s).2 →
  Print_workers k ∈ out s.
Proof.
  unfold_unit.
  destruct (decide (0 < skip_count (db s) host)%nat); simpl.
  { intros [?|?%list_elem_of_singleton]%elem_of_app; done. }
  case_scan w host port;
    repeat match goal with
    | |- context [map_domain_to_ciphers ?h ?c ?st] =>
        destruct (map_domain_to_ciphers h c st); simpl
    | |- context [is_Exception ?e] => destruct (is_Exception e); simpl
    end;
    intros Hin; repeat (apply elem_of_app in Hin as [Hin|Hin]); try done;
    by apply list_elem_of_singleton in Hin.
Qed.

Lemma tally_lines_workers futures completed total k :
  Print_workers k ∉ tally_lines futures completed total.
Proof.
  revert completed. induction futures as [|[[h ok]|e] futures IH]; intros c; simpl;
    [by intros ?%elem_of_nil| |by intros ?%elem_of_nil].
  intros [?|?]%elem_of_cons; [done|]. by eapply IH.
Qed.

End pool.

(** X21. The worker pool is created only when there is a host, and with
    between 1 and 32 workers, never more than there are hosts: a run that
    announces a pool size announces the smaller of 32 and the number of
    rows of [domain_names], which is at least 1. *)
Theorem pool_size_in_bounds w as_completed conn k :
  Print_workers k ∈ out (main w as_completed conn).2 →
  k = (32 `min` length (domain_names conn))%nat ∧
  (1 ≤ k ≤ 32)%nat ∧ (k ≤ length (domain_names conn))%nat.
Proof.
  destruct (decide (domain_names conn = [])) as [Hnil|Hne].
  { rewrite main_no_domains by done. simpl. by intros ?%list_elem_of_singleton. }
  set (n := length (name_value <$> domain_names conn)).
  destruct (run_pool_spec w (λ s, ∀ k, Print_workers k ∈ out s → k = (32 `min` n)%nat)
              (λ _ _, True)
              (as_completed (name_value <$> domain_names conn))
              {| db := conn;
                 out := [Print_processing_domains n; Print_workers (32 `min` n)] |})
    as (futures & s' & Hrun & Hinv & _).
  - intros host s0 _ Hs0. split; [|done]. intros k' Hin.
    by apply Hs0, (process_domain_wrapper_workers w host 443).
  - simpl. intros k' [?|[[= ->]|?%elem_of_nil]%elem_of_cons]%elem_of_cons; done.
  - rewrite (main_spec _ _ _ _ _ Hne Hrun). cbn [snd out]. intros Hin.
    assert (k = (32 `min` n)%nat) as ->.
    { apply elem_of_app in Hin as [Hin|Hin]; [by apply Hinv|].
      apply elem_of_app in Hin as [Hin|Hin]; [by apply tally_lines_workers in Hin|].
      destruct (first_raise futures); [by apply elem_of_nil in Hin|].
      by apply list_elem_of_singleton in Hin. }
    unfold n. rewrite length_fmap.
    assert (length (domain_names conn) ≠ 0%nat) by (by destruct (domain_names conn)).
    lia.
Qed.

Lemma pool_size_in_bounds_witness :
  Print_workers 3 ∈ out (main sample_world reverse store_with_bad_report).2 ∧
  (1 ≤ 3 ≤ 32)%nat.
Proof.
  assert (Print_workers 3 ∈ out (main sample_world reverse store_with_bad_report).2)
    as Hin.
  { vm_compute. right. left. }
  split; [exact Hin|].
  exact (proj1 (proj2 (pool_size_in_bounds _ _ _ _ Hin))).
Defined.
